(** * hidden: least-significant-bit message hiding in BMP pixel data

    A shallow embedding of [hidden.go] (package main) and the verification
    of its bit-level codec: framing of the message ([newBitReader]), the
    bit cursor ([bitReader.next]), the embedding loop of [encode] and the
    extraction loop and frame check of [decode].

    Bytes, [int] and [uint32] values are integers of [Z]; every place where
    Go truncates to a width is written out with [uint8] or [uint32].  The
    width of [int] depends on the build (32 or 64 bits).  The lengths and
    indices of the program are those of slices held in memory and are
    left unbounded; the one [int] that is not of this kind, [int(size)]
    in [decode], is written out with the width as a parameter:
    [decode_on], [decode_cmd_on] and [main_on] take the number of bits of
    [int], and [decode], [decode_cmd] and [main] are the build with 64
    bits.  The container codec ([bmp.Decode],
    [bmp.Encode]) and the file system are outside the model: [encode] and
    [decode] take the pixel bytes ([image.RGBA.Pix]) and the message
    bytes, and return the bytes they would write.  Both images of [encode]
    come from [image.NewRGBA] with the same bounds, so their [Pix] have the
    same length. *)

From stdpp Require Import base list numbers strings gmap.
From coqutil Require Import Z.bitblast.
From Stdlib Require Import ZArith Lia Btauto.

Local Open Scope Z_scope.

(** ** Go: the fragments of the language and of its standard library
    that [hidden.go] uses. *)
Module Go.

(** [len(s)] as an [int]. *)
Definition len {A : Type} (s : list A) : Z := Z.of_nat (length s).

(** Conversions to unsigned types keep the low bits. *)
Definition uint8 (x : Z) : Z := x mod 2 ^ 8.
Definition uint32 (x : Z) : Z := x mod 2 ^ 32.

(** How a run ends: normally, through [fatal] (which prints its message
    and exits), or with a run-time panic (index or slice out of range). *)
Inductive result (A : Type) : Type :=
| Done (a : A)
| Fatal (msg : string)
| Panic.
Arguments Done {A} a.
Arguments Fatal {A} msg.
Arguments Panic {A}.

(** Programs over a mutable state [S]. *)
Definition prog (S A : Type) : Type := S -> result A * S.

Definition ret {S A : Type} (a : A) : prog S A := fun s => (Done a, s).

Definition bind {S A B : Type} (m : prog S A) (f : A -> prog S B) : prog S B :=
  fun s =>
    match m s with
    | (Done a, s') => f a s'
    | (Fatal msg, s') => (Fatal msg, s')
    | (Panic, s') => (Panic, s')
    end.

Definition fatal {S A : Type} (msg : string) : prog S A := fun s => (Fatal msg, s).
Definition get {S : Type} : prog S S := fun s => (Done s, s).

(** [s[i]] panics when [i] is out of range. *)
Definition index (s : list Z) (i : Z) : result Z :=
  if (0 <=? i) && (i <? len s) then
    match s !! Z.to_nat i with
    | Some x => Done x
    | None => Panic
    end
  else Panic.

(** [s[i] = v] panics when [i] is out of range. *)
Definition store (s : list Z) (i v : Z) : result (list Z) :=
  if (0 <=? i) && (i <? len s) then Done (<[Z.to_nat i := v]> s) else Panic.

(** [s[:n]] for [n] not above [len(s)]; beyond it the slice expression
    panics (the model takes the capacity of [s] to be its length). *)
Definition slice_to (s : list Z) (n : Z) : result (list Z) :=
  if (0 <=? n) && (n <=? len s) then Done (take (Z.to_nat n) s) else Panic.

(** [io.EOF] and the [nil] error. *)
Inductive error : Type := nilError | EOF.

(** *** encoding/binary, big endian *)

(** [binary.BigEndian.PutUint32]. *)
Definition PutUint32 (v : Z) : list Z :=
  [ uint8 (Z.shiftr v 24); uint8 (Z.shiftr v 16); uint8 (Z.shiftr v 8); uint8 v ].

(** [binary.BigEndian.Uint32]. *)
Definition Uint32 (b0 b1 b2 b3 : Z) : Z :=
  Z.lor (Z.lor (Z.lor b3 (Z.shiftl b2 8)) (Z.shiftl b1 16)) (Z.shiftl b0 24).

(** [binary.Write(&buf, binary.BigEndian, v)] for [v] a [uint32]: four
    bytes are appended to the buffer. *)
Definition Write_uint32 (buf : list Z) (v : Z) : list Z := buf ++ PutUint32 v.

(** [binary.Read(&buf, binary.BigEndian, &x)] for [x] a [uint32] and
    [buf] a [bytes.Buffer] holding the unread bytes [buf]: [io.ReadFull]
    takes four bytes; with fewer than four left it takes what is there,
    reports an error (which [decode] ignores) and [x] keeps its value. *)
Definition Read_uint32 (buf : list Z) (x : Z) : Z * list Z :=
  match buf with
  | b0 :: b1 :: b2 :: b3 :: rest => (Uint32 b0 b1 b2 b3, rest)
  | _ => (x, [])
  end.

(** *** hash/adler32 *)

Definition adler32_mod : Z := 65521.

(** One byte of the running sums [s1], [s2]. *)
Definition adler32_update (d : Z * Z) (x : Z) : Z * Z :=
  let s1 := (fst d + x) mod adler32_mod in
  (s1, (snd d + s1) mod adler32_mod).

(** [adler32.Checksum]: [s2<<16 | s1], from [s1 = 1], [s2 = 0]. *)
Definition Checksum (p : list Z) : Z :=
  let d := fold_left adler32_update p (1, 0) in
  Z.lor (Z.shiftl (snd d) 16) (fst d).

End Go.

Import Go.

Notation "x <- m ;; k" := (bind m (fun x => k))
  (at level 100, m at next level, right associativity).

(** ** hidden.go *)

(** *** The bit reader *)

Record bitReader : Type := { ptr : Z; data : list Z }.

(** [newBitReader], after [ioutil.ReadFile] returned [msg]. *)
Definition newBitReader (msg : list Z) : bitReader :=
  let buf := Write_uint32 [] (uint32 (len msg)) in
  let buf := Write_uint32 buf (Checksum msg) in
  let buf := buf ++ msg in
  {| ptr := 0; data := buf |}.

(** [(br *bitReader) next()]. *)
Definition next : prog bitReader (Z * error) :=
  fun br =>
    let i := Z.quot (ptr br) 8 in
    if len (data br) <=? i then (Done (0, EOF), br)
    else
      let bit := uint8 (Z.rem (ptr br) 8) in
      match index (data br) i with
      | Done b =>
          (Done (Z.shiftr (Z.land b (Z.shiftr 128 bit)) (7 - bit), nilError),
           {| ptr := ptr br + 1; data := data br |})
      | Fatal msg => (Fatal msg, br)
      | Panic => (Panic, br)
      end.

(** *** encode *)

Definition messageTooLarge : string := "message is to large".

(** What the loop of [encode] mutates: the pixels of [destImg] and the
    reader [r]. *)
Record encoder : Type := { destPix : list Z; r : bitReader }.

(** [destImg.Pix[i] = v]. *)
Definition setPix (i v : Z) : prog encoder unit :=
  fun st =>
    match store (destPix st) i v with
    | Done d => (Done tt, {| destPix := d; r := r st |})
    | Fatal msg => (Fatal msg, st)
    | Panic => (Panic, st)
    end.

(** [r.next()] on the reader of the encoder. *)
Definition nextBit : prog encoder (Z * error) :=
  fun st =>
    let '(res, br) := next (r st) in
    (res, {| destPix := destPix st; r := br |}).

(** The body of [for i, b := range srcImg.Pix]. *)
Definition encode_body (i b : Z) : prog encoder unit :=
  if Z.rem (i + 1) 4 =? 0 then setPix i b
  else
    be <- nextBit ;;
    match snd be with
    | EOF => setPix i b
    | nilError =>
        let b' := if negb (b mod 2 =? 0) then uint8 (b - 1) else b in
        setPix i (uint8 (b' + fst be))
    end.

Fixpoint encode_loop (i : Z) (pix : list Z) : prog encoder unit :=
  match pix with
  | [] => ret tt
  | b :: rest => _ <- encode_body i b ;; encode_loop (i + 1) rest
  end.

(** The state [encode] starts its loop from: [image.NewRGBA] gives zeroed
    pixels of the size of the source. *)
Definition encode_init (srcPix msg : list Z) : encoder :=
  {| destPix := replicate (length srcPix) 0; r := newBitReader msg |}.

(** [encode], from the pixels of [fin] and the bytes of [fmsg]: the result
    is what is handed to [bmp.Encode], the state is the one at exit. *)
Definition encode (srcPix msg : list Z) : result (list Z) * encoder :=
  let st := encode_init srcPix msg in
  let ln := len srcPix in
  if ln <? len (data (r st)) + Z.quot ln 4 then fatal messageTooLarge st
  else (_ <- encode_loop 0 srcPix ;; st' <- get ;; ret (destPix st')) st.

(** *** decode *)

Definition noHiddenMessage : string := "image did not contain a hidden message".

(** What the loop of [decode] mutates. *)
Record decoder : Type := { buf : list Z; res : Z; j : Z }.

(** The body of [for i, b := range img.Pix]. *)
Definition decode_body (i b : Z) (st : decoder) : decoder :=
  if Z.rem (i + 1) 4 =? 0 then st
  else
    let bit := b mod 2 in
    let res' := Z.lor (res st) (uint8 (Z.shiftl bit (7 - j st mod 8))) in
    let j' := uint32 (j st + 1) in
    if j' mod 8 =? 0 then {| buf := buf st ++ [res']; res := 0; j := j' |}
    else {| buf := buf st; res := res'; j := j' |}.

Fixpoint decode_loop (i : Z) (pix : list Z) (st : decoder) : decoder :=
  match pix with
  | [] => st
  | b :: rest => decode_loop (i + 1) rest (decode_body i b st)
  end.

(** The bytes gathered by the first loop of [decode]. *)
Definition decode_pixels (pix : list Z) : list Z :=
  buf (decode_loop 0 pix {| buf := []; res := 0; j := 0 |}).

(** The two header reads: [size], [hash] and the unread rest. *)
Definition decode_header (buf : list Z) : Z * Z * list Z :=
  let '(size, buf) := Read_uint32 buf 0 in
  let '(hash, buf) := Read_uint32 buf 0 in
  (size, hash, buf).

(** [int(x)] for [x] a [uint32], where [int] has [bits] bits (32 or 64,
    by the build): the low [bits] bits of [x], read as a signed number.
    With 64 bits it is [x]; with 32 bits it is [x - 2 ^ 32] from
    [2 ^ 31] on. *)
Definition int_of_uint32 (bits x : Z) : Z :=
  (x + 2 ^ (bits - 1)) mod 2 ^ bits - 2 ^ (bits - 1).

(** The rest of [decode], from the gathered bytes, in a build whose [int]
    has [bits] bits: the guard compares [len(msg)] with [int(size)], the
    slice [msg[:size]] takes [size] itself.  The slice is reached with
    [size] above [len(msg)] only when [int(size)] is not [size], that is
    with 32 bits and a size of [2 ^ 31] or more, which is above every
    capacity of that build: the panic of [slice_to] is the one of Go.
    The result is the message handed to [ioutil.WriteFile]. *)
Definition decode_message_on (bits : Z) (buf : list Z) : result (list Z) :=
  let '(size, hash, msg) := decode_header buf in
  if len msg <? int_of_uint32 bits size then Fatal noHiddenMessage
  else
    match slice_to msg size with
    | Done msg =>
        if negb (Checksum msg =? hash) then Fatal noHiddenMessage
        else Done msg
    | Fatal m => Fatal m
    | Panic => Panic
    end.

Definition decode_on (bits : Z) (pix : list Z) : result (list Z) :=
  decode_message_on bits (decode_pixels pix).

(** [decode] in a build whose [int] has 64 bits (amd64, arm64). *)
Definition decode_message (buf : list Z) : result (list Z) :=
  decode_message_on 64 buf.

Definition decode (pix : list Z) : result (list Z) :=
  decode_message (decode_pixels pix).

(** The result of [encode] alone. *)
Definition encoded (srcPix msg : list Z) : result (list Z) :=
  fst (encode srcPix msg).

(** ** The codec in the words of its specification *)

Definition is_byte (b : Z) : Prop := 0 <= b < 256.
Definition is_bit (v : Z) : Prop := v = 0 \/ v = 1.

(** A channel byte at index [i] is eligible unless [(i + 1) mod 4 = 0]. *)
Definition eligible (i : Z) : bool := negb ((i + 1) mod 4 =? 0).

(** The eligible bytes, in buffer order, of a buffer whose first byte has
    index [i]. *)
Fixpoint eligible_bytes (i : Z) (pix : list Z) : list Z :=
  match pix with
  | [] => []
  | b :: rest =>
      if eligible i then b :: eligible_bytes (i + 1) rest
      else eligible_bytes (i + 1) rest
  end.

(** [E]: the number of eligible bytes of a channel buffer. *)
Definition eligible_count (pix : list Z) : Z := len (eligible_bytes 0 pix).

Definition lsb (b : Z) : Z := b mod 2.

(** The bit stream a buffer carries: the least-significant bits of its
    eligible bytes. *)
Definition carried_bits (pix : list Z) : list Z := lsb <$> eligible_bytes 0 pix.

(** Bit [k] of a byte, counted from the most significant one. *)
Definition bit_of_byte (d k : Z) : Z := (d / 2 ^ (7 - k)) mod 2.

Definition bits_of_byte (d : Z) : list Z :=
  [ bit_of_byte d 0; bit_of_byte d 1; bit_of_byte d 2; bit_of_byte d 3;
    bit_of_byte d 4; bit_of_byte d 5; bit_of_byte d 6; bit_of_byte d 7 ].

(** The MSB-first bit view of a byte buffer. *)
Fixpoint bits_of (data : list Z) : list Z :=
  match data with
  | [] => []
  | d :: rest => bits_of_byte d ++ bits_of rest
  end.

Definition byte_of_bits (v0 v1 v2 v3 v4 v5 v6 v7 : Z) : Z :=
  128 * v0 + 64 * v1 + 32 * v2 + 16 * v3 + 8 * v4 + 4 * v5 + 2 * v6 + v7.

(** Packing a bit stream, 8 bits MSB-first per byte; a last group of
    fewer than 8 bits gives no byte. *)
Fixpoint pack_bits (bits : list Z) : list Z :=
  match bits with
  | v0 :: v1 :: v2 :: v3 :: v4 :: v5 :: v6 :: v7 :: rest =>
      byte_of_bits v0 v1 v2 v3 v4 v5 v6 v7 :: pack_bits rest
  | _ => []
  end.

(** [extract] of the specification. *)
Definition extract (pix : list Z) : list Z := pack_bits (carried_bits pix).

(** [b] with its least-significant bit cleared, or-ed with [v]. *)
Definition set_lsb (b v : Z) : Z := Z.lor (Z.land b 254) v.

(** The mutation rule of [embed], on a buffer whose first byte has index
    [i]: ineligible bytes are copied, an eligible byte takes the next bit,
    and once the bits are used up the bytes are copied. *)
Fixpoint embed_bits (i : Z) (pix bits : list Z) : list Z :=
  match pix with
  | [] => []
  | b :: rest =>
      if eligible i then
        match bits with
        | v :: bits' => set_lsb b v :: embed_bits (i + 1) rest bits'
        | [] => b :: embed_bits (i + 1) rest []
        end
      else b :: embed_bits (i + 1) rest bits
  end.

(** A value of 32 bits as 4 big-endian bytes. *)
Definition big_endian4 (v : Z) : list Z :=
  [ (v / 2 ^ 24) mod 256; (v / 2 ^ 16) mod 256; (v / 2 ^ 8) mod 256; v mod 256 ].

(** The value of 4 big-endian bytes. *)
Definition big_endian_value (b0 b1 b2 b3 : Z) : Z :=
  b0 * 2 ^ 24 + b1 * 2 ^ 16 + b2 * 2 ^ 8 + b3.

(** [serialize (build_frame payload)] of the specification: the size, the
    checksum, the payload.  The size of a frame is a [u32], as in
    [uint32(len(msg))] of [newBitReader]: it is the length of the payload
    only below [2 ^ 32]. *)
Definition frame (payload : list Z) : list Z :=
  big_endian4 (uint32 (len payload)) ++ big_endian4 (Checksum payload) ++ payload.

(** One bit of a byte flipped: bit [k], counted from the least
    significant one. *)
Definition flip_bit (b k : Z) : Z := Z.lxor b (2 ^ k).

(** ** Auxiliary definitions *)

(** One step of the first loop of [decode] on an eligible byte: the bit
    [v] enters the byte being assembled. *)
Definition push_bit (v : Z) (st : decoder) : decoder :=
  let res' := Z.lor (res st) (uint8 (Z.shiftl v (7 - j st mod 8))) in
  let j' := uint32 (j st + 1) in
  if j' mod 8 =? 0 then {| buf := buf st ++ [res']; res := 0; j := j' |}
  else {| buf := buf st; res := res'; j := j' |}.

(** The loop on a stream of bits. *)
Definition push_bits (bits : list Z) (st : decoder) : decoder :=
  fold_left (fun st v => push_bit v st) bits st.

(** The bits a reader has not handed out yet. *)
Definition remaining_bits (br : bitReader) : list Z :=
  drop (Z.to_nat (ptr br)) (bits_of (data br)).

(** A payload of [2 ^ 32] zero bytes, and a carrier of 11453246144
    pixels, whose eligible bytes are just enough for its frame. *)
Definition payload_4GiB : list Z := replicate (Z.to_nat (2 ^ 32)) 0.
Definition carrier_4GiB : list Z := replicate (Z.to_nat 45812984576) 0.

(** The sum of the bytes of a buffer. *)
Definition sum_bytes (p : list Z) : Z := foldr Z.add 0 p.

(** ** Sample data *)

(** The bytes of "HELLO". *)
Definition hello : list Z := [72; 69; 76; 76; 79].

(** A carrier of 139 bytes, with 105 eligible ones: one more than the 104
    bits of the frame of [hello]. *)
Definition small_carrier : list Z := replicate 139 200.

(** [small_carrier] with the frame of [hello] embedded. *)
Definition hello_carrier : list Z :=
  embed_bits 0 small_carrier (bits_of (frame hello)).

(** The carrier of 10000 pixels, and a payload of 3743 bytes. *)
Definition carrier_40000 : list Z := replicate (Z.to_nat 40000) 0.
Definition payload_3743 : list Z := replicate (Z.to_nat 3743) 65.

(** The bits [next] hands out in at most [fuel] calls, and the reader
    after them. *)
Fixpoint read_bits (fuel : nat) (br : bitReader) : list Z * bitReader :=
  match fuel with
  | O => ([], br)
  | S fuel' =>
      match next br with
      | (Done (v, nilError), br') =>
          let '(bits, br'') := read_bits fuel' br' in (v :: bits, br'')
      | _ => ([], br)
      end
  end.

(** ** The program around the codec: flags, files and the container *)

(** An [*image.RGBA]: its bounds (width and height) and its pixels. *)
Record RGBA : Type := { Rect : Z * Z; Pix : list Z }.

(** An [image.Image], as the type assertion of [openImage] sees it. *)
Inductive Image : Type :=
| ImageRGBA (m : RGBA)
| ImageOther.

(** What the program asks of its environment, over file systems [FS]:
    each operation gives its result or the text of its error, and the file
    system it leaves.  Nothing is assumed of them. *)
Class Env (FS : Type) : Type := {
  os_Open : FS -> string -> list Z + string;
  bmp_Decode : list Z -> Image + string;
  ioutil_ReadFile : FS -> string -> list Z + string;
  ioutil_WriteFile : FS -> string -> list Z -> FS * option string;
  os_Create : FS -> string -> FS + string;
  bmp_Encode : FS -> string -> RGBA -> FS * option string;
  path_Dir : string -> string;
  path_Join : string -> string -> string;
  flag_PrintDefaults : list string
}.

(** The files, and the lines printed so far. *)
Record world (FS : Type) : Type :=
  { files : FS; stdout : list string; stderr : list string }.
Arguments files {FS} w.
Arguments stdout {FS} w.
Arguments stderr {FS} w.

Definition set_files {FS : Type} (fs : FS) (w : world FS) : world FS :=
  {| files := fs; stdout := stdout w; stderr := stderr w |}.

(** [fmt.Println]. *)
Definition Println {FS : Type} (line : string) : prog (world FS) unit :=
  fun w =>
    (Done tt, {| files := files w; stdout := stdout w ++ [line]; stderr := stderr w |}).

(** [fatal(msg)] in the world: the message is printed, the program
    exits. *)
Definition fatal_print {FS A : Type} (msg : string) : prog (world FS) A :=
  _ <- Println msg ;; fatal msg.

(** [openImage]. *)
Definition openImage {FS : Type} `{Env FS} (file : string) : prog (world FS) RGBA :=
  fun w =>
    match os_Open (files w) file with
    | inr err => fatal_print err w
    | inl fp =>
        match bmp_Decode fp with
        | inr err => fatal_print err w
        | inl (ImageRGBA rgbaImg) => (Done rgbaImg, w)
        | inl ImageOther => fatal_print "expected 24bpp bmp image" w
        end
    end.

(** [decode(fin, fout)], with its files, in a build whose [int] has
    [bits] bits. *)
Definition decode_cmd_on {FS : Type} `{Env FS} (bits : Z) (fin fout : string) :
  prog (world FS) unit :=
  img <- openImage fin ;;
  match decode_on bits (Pix img) with
  | Done msg =>
      fun w =>
        match ioutil_WriteFile (files w) fout msg with
        | (fs, None) => (Done tt, set_files fs w)
        | (fs, Some err) => fatal_print err (set_files fs w)
        end
  | Fatal m => fatal_print m
  | Panic => fun w => (Panic, w)
  end.

(** [decode(fin, fout)] in a build whose [int] has 64 bits. *)
Definition decode_cmd {FS : Type} `{Env FS} (fin fout : string) : prog (world FS) unit :=
  decode_cmd_on 64 fin fout.

(** What [fmt.Println] prints for an error value; [None] is the nil
    error. *)
Definition error_text (err : option string) : string :=
  match err with
  | Some text => text
  | None => "<nil>"
  end.

(** [encode(fin, fout, fmsg)], with its files.  [err] is the variable
    that [os.Create] sets; it is also the one handed to [fatal] when
    [bmp.Encode] fails. *)
Definition encode_cmd {FS : Type} `{Env FS} (fin fout fmsg : string) :
  prog (world FS) unit :=
  srcImg <- openImage fin ;;
  fun w =>
    match ioutil_ReadFile (files w) fmsg with
    | inr err => fatal_print err w
    | inl msg =>
        match encoded (Pix srcImg) msg with
        | Done destPix =>
            let '(fpo, err) :=
              match os_Create (files w) fout with
              | inl fs1 => (fs1, None)
              | inr text => (files w, Some text)
              end in
            match err with
            | Some _ => fatal_print (error_text err) w
            | None =>
                match bmp_Encode fpo fout {| Rect := Rect srcImg; Pix := destPix |} with
                | (fs2, None) => (Done tt, set_files fs2 w)
                | (fs2, Some _) => fatal_print (error_text err) (set_files fs2 w)
                end
            end
        | Fatal m => fatal_print m w
        | Panic => (Panic, w)
        end
    end.

Definition copyright : string :=
  "Copyright (C) 2017 Andreas T Jonsson" ++ String (Ascii.ascii_of_nat 10) EmptyString.

(** [flag.PrintDefaults] and [fatal()]. *)
Definition usage {FS : Type} `{Env FS} : prog (world FS) unit :=
  fun w =>
    fatal_print ""
      {| files := files w; stdout := stdout w;
         stderr := stderr w ++ flag_PrintDefaults |}.

(** [main], from the values of the flags [-encode], [-decode], [-msg],
    in a build whose [int] has [bits] bits. *)
Definition main_on {FS : Type} `{Env FS} (bits : Z) (enc dec msg : string) :
  prog (world FS) unit :=
  _ <- Println "Hidden Message" ;;
  _ <- Println copyright ;;
  if negb (String.eqb msg "") then
    if negb (String.eqb dec "") then
      _ <- decode_cmd_on bits dec msg ;; Println "Done!"
    else if negb (String.eqb enc "") then
      let dest := path_Join (path_Dir enc) "encoded.bmp" in
      _ <- encode_cmd enc dest msg ;; Println "Done!"
    else usage
  else usage.

(** [main] in a build whose [int] has 64 bits. *)
Definition main {FS : Type} `{Env FS} (enc dec msg : string) : prog (world FS) unit :=
  main_on 64 enc dec msg.

(** A toy environment: files are a finite map, a bitmap file holds the
    pixels of a one-row RGBA image (read as bytes), every operation on an
    existing file succeeds, and all files are in one directory. *)
#[local] Instance toy_env : Env (gmap string (list Z)) := {|
  os_Open fs name :=
    match fs !! name with Some d => inl d | None => inr "no such file"%string end;
  bmp_Decode d :=
    inl (ImageRGBA {| Rect := (len d / 4, 1); Pix := (fun b => b mod 256) <$> d |});
  ioutil_ReadFile fs name :=
    match fs !! name with Some d => inl d | None => inr "no such file"%string end;
  ioutil_WriteFile fs name d := (<[name := d]> fs, None);
  os_Create fs name := inl (<[name := []]> fs);
  bmp_Encode fs name m := (<[name := Pix m]> fs, None);
  path_Dir _ := "."%string;
  path_Join _ name := name;
  flag_PrintDefaults := []
|}.

Definition toy_files : gmap string (list Z) :=
  {[ "in.bmp"%string := small_carrier; "msg.txt"%string := hello ]}.

Definition toy_world : world (gmap string (list Z)) :=
  {| files := toy_files; stdout := []; stderr := [] |}.

(** The toy environment on a full disk: [bmp.Encode] fails. *)
Definition full_disk_env : Env (gmap string (list Z)) := {|
  os_Open fs name :=
    match fs !! name with Some d => inl d | None => inr "no such file"%string end;
  bmp_Decode d :=
    inl (ImageRGBA {| Rect := (len d / 4, 1); Pix := (fun b => b mod 256) <$> d |});
  ioutil_ReadFile fs name :=
    match fs !! name with Some d => inl d | None => inr "no such file"%string end;
  ioutil_WriteFile fs name d := (fs, Some "no space left on device"%string);
  os_Create fs name := inl (<[name := []]> fs);
  bmp_Encode fs name m := (fs, Some "no space left on device"%string);
  path_Dir _ := "."%string;
  path_Join _ name := name;
  flag_PrintDefaults := []
|}.

(** A world whose image has one pixel, and one that holds the output of
    [encode]. *)
Definition tiny_world : world (gmap string (list Z)) :=
  {| files := {[ "in.bmp"%string := [1; 2; 3; 4]; "msg.txt"%string := hello ]};
     stdout := []; stderr := [] |}.

Definition encoded_world : world (gmap string (list Z)) :=
  {| files := {[ "encoded.bmp"%string := hello_carrier ]};
     stdout := []; stderr := [] |}.

(** A world whose image is white, 11 pixels: 4 bytes are gathered from
    it, and they declare a size of [2 ^ 32 - 1]. *)
Definition white_world : world (gmap string (list Z)) :=
  {| files := {[ "white.bmp"%string := replicate 44 255 ]};
     stdout := []; stderr := [] |}.

Example hello_roundtrip :
  match encoded small_carrier hello with
  | Done out => decode out
  | _ => Panic
  end = Done hello.
Proof. vm_compute. reflexivity. Qed.

(** The Adler-32 of "Wikipedia" is 0x11E60398. *)
Example Checksum_Wikipedia :
  Checksum [87; 105; 107; 105; 112; 101; 100; 105; 97] = 300286872.
Proof. reflexivity. Qed.

(** ** Arithmetic of the machine types *)

Ltac zdm := Z.div_mod_to_equations; lia.

Lemma rem4_nonneg (i : Z) : 0 <= i -> Z.rem (i + 1) 4 = (i + 1) mod 4.
Proof. intros Hi. apply Z.rem_mod_nonneg; lia. Qed.

Lemma quot_nonneg (a b : Z) : 0 <= a -> 0 < b -> Z.quot a b = a / b.
Proof. intros Ha Hb. apply Z.quot_div_nonneg; lia. Qed.

Lemma rem_nonneg (a b : Z) : 0 <= a -> 0 < b -> Z.rem a b = a mod b.
Proof. intros Ha Hb. apply Z.rem_mod_nonneg; lia. Qed.

Lemma uint32_succ_mod8 (n : Z) : uint32 (n + 1) mod 8 = (n mod 8 + 1) mod 8.
Proof. unfold uint32. change (2 ^ 32) with 4294967296. zdm. Qed.

Lemma lsb_is_bit (b : Z) : is_bit (lsb b).
Proof. unfold is_bit, lsb. zdm. Qed.

Lemma len_nil {A : Type} : len (@nil A) = 0.
Proof. reflexivity. Qed.

Lemma len_cons {A : Type} (x : A) (l : list A) : len (x :: l) = len l + 1.
Proof. unfold len. simpl. lia. Qed.

Lemma len_app {A : Type} (l k : list A) : len (l ++ k) = len l + len k.
Proof. unfold len. rewrite length_app. lia. Qed.

Lemma len_nonneg {A : Type} (l : list A) : 0 <= len l.
Proof. unfold len. lia. Qed.

(** ** The first loop of [decode] *)

Lemma decode_body_push (i b : Z) (st : decoder) :
  0 <= i ->
  decode_body i b st = if eligible i then push_bit (lsb b) st else st.
Proof.
  intros Hi. unfold decode_body, eligible, push_bit, lsb.
  rewrite rem4_nonneg by lia.
  destruct ((i + 1) mod 4 =? 0); reflexivity.
Qed.

Lemma decode_loop_push (pix : list Z) : forall (i : Z) (st : decoder),
  0 <= i ->
  decode_loop i pix st = push_bits (lsb <$> eligible_bytes i pix) st.
Proof.
  induction pix as [|b rest IH]; intros i st Hi; [reflexivity|].
  simpl. rewrite decode_body_push by lia. rewrite IH by lia.
  destruct (eligible i); reflexivity.
Qed.

Lemma push_bit_phase (v : Z) (st : decoder) (k : Z) :
  j st mod 8 = k -> 0 <= k < 7 ->
  push_bit v st =
    {| buf := buf st;
       res := Z.lor (res st) (uint8 (Z.shiftl v (7 - k)));
       j := uint32 (j st + 1) |}.
Proof.
  intros Hk Hr. unfold push_bit. rewrite uint32_succ_mod8, Hk.
  destruct ((k + 1) mod 8 =? 0) eqn:Hz; [|reflexivity].
  apply Z.eqb_eq in Hz. exfalso. zdm.
Qed.

Lemma push_bit_last (v : Z) (st : decoder) :
  j st mod 8 = 7 ->
  push_bit v st =
    {| buf := buf st ++ [Z.lor (res st) (uint8 (Z.shiftl v 0))];
       res := 0;
       j := uint32 (j st + 1) |}.
Proof.
  intros Hk. unfold push_bit. rewrite uint32_succ_mod8, Hk. reflexivity.
Qed.

Lemma push_bit_step_phase (v : Z) (st : decoder) :
  j (push_bit v st) mod 8 = (j st mod 8 + 1) mod 8.
Proof.
  unfold push_bit. destruct (uint32 (j st + 1) mod 8 =? 0); simpl;
    apply uint32_succ_mod8.
Qed.

(** Fewer bits than are missing for a byte leave the buffer as it is. *)
Lemma push_bits_short (bits : list Z) : forall (st : decoder),
  j st mod 8 + len bits < 8 ->
  buf (push_bits bits st) = buf st.
Proof.
  induction bits as [|v bits IH]; intros st Hlt; [reflexivity|].
  rewrite len_cons in Hlt. pose proof (len_nonneg bits) as Hn.
  assert (0 <= j st mod 8 < 7) as Hk by zdm.
  change (push_bits (v :: bits) st) with (push_bits bits (push_bit v st)).
  rewrite IH.
  - rewrite (push_bit_phase v st (j st mod 8)) by (reflexivity || lia). reflexivity.
  - rewrite push_bit_step_phase. zdm.
Qed.

Lemma assemble_byte (v0 v1 v2 v3 v4 v5 v6 v7 : Z) :
  is_bit v0 -> is_bit v1 -> is_bit v2 -> is_bit v3 ->
  is_bit v4 -> is_bit v5 -> is_bit v6 -> is_bit v7 ->
  Z.lor (Z.lor (Z.lor (Z.lor (Z.lor (Z.lor (Z.lor (Z.lor 0
    (uint8 (Z.shiftl v0 (7 - 0)))) (uint8 (Z.shiftl v1 (7 - 1))))
    (uint8 (Z.shiftl v2 (7 - 2)))) (uint8 (Z.shiftl v3 (7 - 3))))
    (uint8 (Z.shiftl v4 (7 - 4)))) (uint8 (Z.shiftl v5 (7 - 5))))
    (uint8 (Z.shiftl v6 (7 - 6)))) (uint8 (Z.shiftl v7 0))
  = byte_of_bits v0 v1 v2 v3 v4 v5 v6 v7.
Proof.
  unfold is_bit.
  intros [-> | ->] [-> | ->] [-> | ->] [-> | ->] [-> | ->] [-> | ->] [-> | ->] [-> | ->];
    reflexivity.
Qed.

(** The phase [j mod 8] after some steps from a known phase [Hj]. *)
Ltac phase Hj :=
  cbn [j]; repeat rewrite uint32_succ_mod8; rewrite Hj; reflexivity.

(** Eight bits from a byte boundary append one byte. *)
Lemma push_bits_byte (v0 v1 v2 v3 v4 v5 v6 v7 : Z) (st : decoder) :
  is_bit v0 -> is_bit v1 -> is_bit v2 -> is_bit v3 ->
  is_bit v4 -> is_bit v5 -> is_bit v6 -> is_bit v7 ->
  res st = 0 -> j st mod 8 = 0 ->
  exists j',
    push_bits [v0; v1; v2; v3; v4; v5; v6; v7] st =
      {| buf := buf st ++ [byte_of_bits v0 v1 v2 v3 v4 v5 v6 v7]; res := 0; j := j' |}
    /\ j' mod 8 = 0.
Proof.
  intros H0 H1 H2 H3 H4 H5 H6 H7 Hres Hj.
  assert (forall k, 0 <= k < 7 -> 0 <= k < 7) as R by auto.
  unfold push_bits. cbn [fold_left].
  rewrite (push_bit_phase v0 st 0 Hj) by lia.
  rewrite (push_bit_phase v1 _ 1) by (first [ apply R; lia | phase Hj ]). cbn [buf res j].
  rewrite (push_bit_phase v2 _ 2) by (first [ apply R; lia | phase Hj ]). cbn [buf res j].
  rewrite (push_bit_phase v3 _ 3) by (first [ apply R; lia | phase Hj ]). cbn [buf res j].
  rewrite (push_bit_phase v4 _ 4) by (first [ apply R; lia | phase Hj ]). cbn [buf res j].
  rewrite (push_bit_phase v5 _ 5) by (first [ apply R; lia | phase Hj ]). cbn [buf res j].
  rewrite (push_bit_phase v6 _ 6) by (first [ apply R; lia | phase Hj ]). cbn [buf res j].
  rewrite push_bit_last by phase Hj. cbn [buf res j].
  eexists. split.
  - rewrite Hres, assemble_byte by assumption. reflexivity.
  - phase Hj.
Qed.

(** Induction on a list by groups of eight. *)
Lemma list_ind_8 {A : Type} (P : list A -> Prop) :
  (forall l, (length l < 8)%nat -> P l) ->
  (forall a0 a1 a2 a3 a4 a5 a6 a7 rest,
      P rest -> P (a0 :: a1 :: a2 :: a3 :: a4 :: a5 :: a6 :: a7 :: rest)) ->
  forall l, P l.
Proof.
  intros Hshort Hgroup l.
  assert (forall n k, (length k <= n)%nat -> P k) as Hall.
  { induction n as [|n IH]; intros k Hk.
    - apply Hshort. lia.
    - destruct k as [|a0 [|a1 [|a2 [|a3 [|a4 [|a5 [|a6 [|a7 rest]]]]]]]];
        try (apply Hshort; simpl; lia).
      apply Hgroup, IH. simpl in Hk. lia. }
  apply (Hall (length l)). lia.
Qed.

Lemma pack_bits_short (bits : list Z) :
  (length bits < 8)%nat -> pack_bits bits = [].
Proof.
  intros Hlt.
  destruct bits as [|a0 [|a1 [|a2 [|a3 [|a4 [|a5 [|a6 [|a7 rest]]]]]]]];
    try reflexivity.
  simpl in Hlt. lia.
Qed.

Lemma len_pack_bits (bits : list Z) : len (pack_bits bits) = len bits / 8.
Proof.
  induction bits as [l Hl | a0 a1 a2 a3 a4 a5 a6 a7 rest IH] using list_ind_8.
  - rewrite pack_bits_short by assumption. rewrite len_nil.
    symmetry. apply Z.div_small. unfold len. lia.
  - cbn [pack_bits]. rewrite !len_cons, IH. pose proof (len_nonneg rest). zdm.
Qed.

Lemma push_bits_app (l k : list Z) (st : decoder) :
  push_bits (l ++ k) st = push_bits k (push_bits l st).
Proof. apply fold_left_app. Qed.

(** From a byte boundary the loop appends the packed bytes. *)
Lemma push_bits_pack (bits : list Z) : forall (st : decoder),
  Forall is_bit bits -> res st = 0 -> j st mod 8 = 0 ->
  buf (push_bits bits st) = buf st ++ pack_bits bits.
Proof.
  induction bits as [l Hl | a0 a1 a2 a3 a4 a5 a6 a7 rest IH] using list_ind_8;
    intros st Hbits Hres Hj.
  - rewrite push_bits_short by (rewrite Hj; unfold len; lia).
    rewrite pack_bits_short by assumption. rewrite app_nil_r. reflexivity.
  - repeat (apply Forall_cons in Hbits; destruct Hbits as [? Hbits]).
    change (a0 :: a1 :: a2 :: a3 :: a4 :: a5 :: a6 :: a7 :: rest)
      with ([a0; a1; a2; a3; a4; a5; a6; a7] ++ rest) at 1.
    rewrite push_bits_app.
    destruct (push_bits_byte a0 a1 a2 a3 a4 a5 a6 a7 st) as (j' & -> & Hj');
      try assumption.
    rewrite IH by (assumption || reflexivity). cbn [buf pack_bits].
    rewrite <- app_assoc. reflexivity.
Qed.

Lemma carried_bits_are_bits (i : Z) (pix : list Z) :
  Forall is_bit (lsb <$> eligible_bytes i pix).
Proof.
  apply Forall_fmap, Forall_forall. intros b _. apply lsb_is_bit.
Qed.

(** The first loop of [decode] computes [extract]. *)
Lemma decode_pixels_extract (pix : list Z) : decode_pixels pix = extract pix.
Proof.
  unfold decode_pixels, extract, carried_bits.
  rewrite decode_loop_push by lia.
  rewrite push_bits_pack; [reflexivity | apply carried_bits_are_bits | reflexivity..].
Qed.

(** ** Counting the eligible bytes *)

Lemma eligible_unfold (i : Z) : eligible i = negb ((i + 1) mod 4 =? 0).
Proof. reflexivity. Qed.

Lemma len_eligible_bytes (pix : list Z) : forall (i : Z),
  0 <= i ->
  len (eligible_bytes i pix) = len pix - ((i + len pix) / 4 - i / 4).
Proof.
  induction pix as [|b rest IH]; intros i Hi.
  - cbn [eligible_bytes]. change (len (@nil Z)) with 0.
    replace (i + 0) with i by lia. lia.
  - cbn [eligible_bytes]. rewrite eligible_unfold.
    pose proof (len_nonneg rest) as Hn.
    destruct ((i + 1) mod 4 =? 0) eqn:Hz; cbn [negb];
      rewrite ?len_cons, IH by lia;
      [apply Z.eqb_eq in Hz | apply Z.eqb_neq in Hz];
      replace (i + (len rest + 1)) with (i + 1 + len rest) by lia;
      generalize dependent (i + 1 + len rest); intros m; zdm.
Qed.

Lemma eligible_count_formula (pix : list Z) :
  eligible_count pix = len pix - len pix / 4.
Proof.
  unfold eligible_count. rewrite len_eligible_bytes by lia.
  replace (0 + len pix) with (len pix) by lia.
  change (0 / 4) with 0. lia.
Qed.

Lemma eligible_bytes_app (pre post : list Z) : forall (i : Z),
  eligible_bytes i (pre ++ post) =
    eligible_bytes i pre ++ eligible_bytes (i + len pre) post.
Proof.
  induction pre as [|b rest IH]; intros i.
  - change (len (@nil Z)) with 0. replace (i + 0) with i by lia. reflexivity.
  - cbn [app eligible_bytes]. rewrite IH, len_cons.
    replace (i + 1 + len rest) with (i + (len rest + 1)) by lia.
    destruct (eligible i); reflexivity.
Qed.

(** ** The bit reader *)

Lemma land_pow2_shiftr (b n : Z) :
  0 <= n -> Z.shiftr (Z.land b (2 ^ n)) n = (b / 2 ^ n) mod 2.
Proof.
  intros Hn. change 2 with (2 ^ 1) at 3.
  Z.bitblast; destruct (Z.eqb_spec n l); try lia; btauto.
Qed.

(** The expression [next] returns is bit [k] of [b], MSB first. *)
Lemma next_bit_value (b k : Z) :
  0 <= k < 8 ->
  Z.shiftr (Z.land b (Z.shiftr 128 k)) (7 - k) = bit_of_byte b k.
Proof.
  intros Hk. unfold bit_of_byte.
  assert (k = 0 \/ k = 1 \/ k = 2 \/ k = 3 \/ k = 4 \/ k = 5 \/ k = 6 \/ k = 7)
    as Hcases by lia.
  destruct Hcases as [-> | [-> | [-> | [-> | [-> | [-> | [-> | ->]]]]]]].
  - exact (land_pow2_shiftr b 7 ltac:(lia)).
  - exact (land_pow2_shiftr b 6 ltac:(lia)).
  - exact (land_pow2_shiftr b 5 ltac:(lia)).
  - exact (land_pow2_shiftr b 4 ltac:(lia)).
  - exact (land_pow2_shiftr b 3 ltac:(lia)).
  - exact (land_pow2_shiftr b 2 ltac:(lia)).
  - exact (land_pow2_shiftr b 1 ltac:(lia)).
  - exact (land_pow2_shiftr b 0 ltac:(lia)).
Qed.

Lemma bit_of_byte_is_bit (d k : Z) : is_bit (bit_of_byte d k).
Proof. unfold is_bit, bit_of_byte. generalize (d / 2 ^ (7 - k)). intros q. zdm. Qed.

Lemma bits_of_are_bits (data : list Z) : Forall is_bit (bits_of data).
Proof.
  induction data as [|d rest IH]; [constructor|].
  cbn [bits_of bits_of_byte app].
  repeat (constructor; [apply bit_of_byte_is_bit|]). exact IH.
Qed.

Lemma length_bits_of (data : list Z) :
  length (bits_of data) = (8 * length data)%nat.
Proof.
  induction data as [|d rest IH]; [reflexivity|].
  cbn [bits_of bits_of_byte app length]. rewrite IH. lia.
Qed.

Lemma len_bits_of (data : list Z) : len (bits_of data) = 8 * len data.
Proof. unfold len. rewrite length_bits_of. lia. Qed.

Lemma bits_of_app (l k : list Z) : bits_of (l ++ k) = bits_of l ++ bits_of k.
Proof.
  induction l as [|d rest IH]; [reflexivity|].
  cbn [app bits_of]. rewrite IH, app_assoc. reflexivity.
Qed.

(** Bit [8 q + k] of the stream is bit [k] of byte [q]. *)
Lemma bits_of_lookup (data : list Z) : forall (q k : nat) (b : Z),
  data !! q = Some b -> (k < 8)%nat ->
  bits_of data !! (8 * q + k)%nat = Some (bit_of_byte b (Z.of_nat k)).
Proof.
  induction data as [|d rest IH]; intros q k b Hq Hk; [discriminate|].
  destruct q as [|q].
  - injection Hq as ->. cbn [bits_of bits_of_byte app].
    do 8 (destruct k as [|k]; [reflexivity|]). lia.
  - replace (8 * S q + k)%nat with (8 + (8 * q + k))%nat by lia.
    cbn [bits_of]. rewrite lookup_app_r by (cbn; lia).
    replace (8 + (8 * q + k) - length (bits_of_byte d))%nat with (8 * q + k)%nat
      by (cbn; lia).
    apply IH; assumption.
Qed.

(** [next] walks the bit stream of its data, then reports [EOF]. *)
Lemma next_spec (br : bitReader) :
  0 <= ptr br ->
  next br =
    match bits_of (data br) !! Z.to_nat (ptr br) with
    | Some v => (Done (v, nilError), {| ptr := ptr br + 1; data := data br |})
    | None => (Done (0, EOF), br)
    end.
Proof.
  intros Hp. unfold next. rewrite quot_nonneg, rem_nonneg by lia.
  assert (uint8 (ptr br mod 8) = ptr br mod 8) as ->.
  { unfold uint8. change (2 ^ 8) with 256. zdm. }
  destruct (len (data br) <=? ptr br / 8) eqn:Hle.
  - apply Z.leb_le in Hle. rewrite lookup_ge_None_2; [reflexivity|].
    rewrite length_bits_of. unfold len in Hle. zdm.
  - apply Z.leb_gt in Hle. unfold index.
    assert ((0 <=? ptr br / 8) && (ptr br / 8 <? len (data br)) = true) as ->.
    { apply andb_true_iff. split; [apply Z.leb_le; zdm | apply Z.ltb_lt; lia]. }
    destruct (lookup_lt_is_Some_2 (data br) (Z.to_nat (ptr br / 8))) as [b Hb].
    { unfold len in Hle. zdm. }
    rewrite Hb.
    replace (Z.to_nat (ptr br))
      with (8 * Z.to_nat (ptr br / 8) + Z.to_nat (ptr br mod 8))%nat by zdm.
    rewrite (bits_of_lookup _ _ _ b Hb) by zdm.
    rewrite Z2Nat.id by zdm. rewrite next_bit_value by zdm. reflexivity.
Qed.

(** ** Bytes, by enumeration *)

Lemma byte_cases (P : Z -> bool) :
  forallb P (List.map Z.of_nat (seq 0 256)) = true ->
  forall b, is_byte b -> P b = true.
Proof.
  intros Hall b [Hlo Hhi].
  rewrite forallb_forall in Hall. apply Hall.
  rewrite <- (Z2Nat.id b) by lia. apply in_map, in_seq. lia.
Qed.

(** What [encode] stores for an eligible byte and a bit is [set_lsb]. *)
Lemma set_lsb_code (b v : Z) :
  is_byte b -> is_bit v ->
  uint8 ((if negb (b mod 2 =? 0) then uint8 (b - 1) else b) + v) = set_lsb b v.
Proof.
  intros Hb Hv.
  pose (P := fun v b =>
    uint8 ((if negb (b mod 2 =? 0) then uint8 (b - 1) else b) + v) =? set_lsb b v).
  apply Z.eqb_eq. change (P v b = true).
  destruct Hv as [-> | ->]; apply byte_cases; try assumption;
    vm_compute; reflexivity.
Qed.

Lemma set_lsb_lsb (b v : Z) : is_byte b -> is_bit v -> lsb (set_lsb b v) = v.
Proof.
  intros Hb Hv. pose (P := fun v b => lsb (set_lsb b v) =? v).
  apply Z.eqb_eq. change (P v b = true).
  destruct Hv as [-> | ->]; apply byte_cases; try assumption;
    vm_compute; reflexivity.
Qed.

Lemma set_lsb_high (b v : Z) :
  is_byte b -> is_bit v -> Z.shiftr (set_lsb b v) 1 = Z.shiftr b 1.
Proof.
  intros Hb Hv. pose (P := fun v b => Z.shiftr (set_lsb b v) 1 =? Z.shiftr b 1).
  apply Z.eqb_eq. change (P v b = true).
  destruct Hv as [-> | ->]; apply byte_cases; try assumption;
    vm_compute; reflexivity.
Qed.

Lemma set_lsb_is_byte (b v : Z) : is_byte b -> is_bit v -> is_byte (set_lsb b v).
Proof.
  intros Hb Hv.
  pose (P := fun v b => (0 <=? set_lsb b v) && (set_lsb b v <? 256)).
  assert (P v b = true) as HP.
  { destruct Hv as [-> | ->]; apply byte_cases; try assumption;
      vm_compute; reflexivity. }
  apply andb_true_iff in HP. destruct HP as [H1 H2].
  apply Z.leb_le in H1. apply Z.ltb_lt in H2. split; assumption.
Qed.

(** ** The loop of [encode] *)

Lemma setPix_spec (n : nat) (v : Z) (st : encoder) :
  (n < length (destPix st))%nat ->
  setPix (Z.of_nat n) v st =
    (Done tt, {| destPix := <[n := v]> (destPix st); r := r st |}).
Proof.
  intros Hn. unfold setPix, store.
  assert ((0 <=? Z.of_nat n) && (Z.of_nat n <? len (destPix st)) = true) as ->.
  { apply andb_true_iff. split; [apply Z.leb_le | apply Z.ltb_lt]; unfold len; lia. }
  rewrite Nat2Z.id. reflexivity.
Qed.

Lemma nextBit_spec (st : encoder) :
  0 <= ptr (r st) ->
  nextBit st =
    match bits_of (data (r st)) !! Z.to_nat (ptr (r st)) with
    | Some v =>
        (Done (v, nilError),
         {| destPix := destPix st;
            r := {| ptr := ptr (r st) + 1; data := data (r st) |} |})
    | None => (Done (0, EOF), st)
    end.
Proof.
  intros Hp. unfold nextBit. rewrite next_spec by assumption.
  destruct (bits_of (data (r st)) !! Z.to_nat (ptr (r st))); [reflexivity|].
  destruct st; reflexivity.
Qed.

Lemma encode_body_spec (n : nat) (b : Z) (st : encoder) :
  (n < length (destPix st))%nat -> 0 <= ptr (r st) -> is_byte b ->
  encode_body (Z.of_nat n) b st =
    if eligible (Z.of_nat n) then
      match bits_of (data (r st)) !! Z.to_nat (ptr (r st)) with
      | Some v =>
          (Done tt,
           {| destPix := <[n := set_lsb b v]> (destPix st);
              r := {| ptr := ptr (r st) + 1; data := data (r st) |} |})
      | None => (Done tt, {| destPix := <[n := b]> (destPix st); r := r st |})
      end
    else (Done tt, {| destPix := <[n := b]> (destPix st); r := r st |}).
Proof.
  intros Hn Hp Hb. unfold encode_body, eligible.
  rewrite rem4_nonneg by lia.
  destruct ((Z.of_nat n + 1) mod 4 =? 0); cbn [negb].
  - apply setPix_spec. assumption.
  - unfold bind. rewrite nextBit_spec by assumption.
    destruct (bits_of (data (r st)) !! Z.to_nat (ptr (r st))) as [v|] eqn:Hv.
    + cbn [snd fst]. rewrite set_lsb_code; [|assumption|].
      * rewrite setPix_spec by assumption. reflexivity.
      * eapply Forall_lookup_1; [apply bits_of_are_bits | exact Hv].
    + cbn [snd]. apply setPix_spec. assumption.
Qed.

Lemma embed_bits_nil (pix : list Z) : forall (i : Z), embed_bits i pix [] = pix.
Proof.
  induction pix as [|b rest IH]; intros i; [reflexivity|].
  cbn [embed_bits]. rewrite IH. destruct (eligible i); reflexivity.
Qed.

Lemma length_embed_bits (pix : list Z) : forall (i : Z) (bits : list Z),
  length (embed_bits i pix bits) = length pix.
Proof.
  induction pix as [|b rest IH]; intros i bits; [reflexivity|].
  cbn [embed_bits]. destruct (eligible i); [destruct bits|]; cbn [length];
    rewrite IH; reflexivity.
Qed.

(** The loop writes the bytes [n], [n + 1], ... of [destImg.Pix] as
    [embed_bits] says, from the bits the reader has left. *)
Lemma encode_loop_spec (pix : list Z) : forall (n : nat) (st : encoder),
  (n + length pix <= length (destPix st))%nat ->
  0 <= ptr (r st) ->
  Forall is_byte pix ->
  exists r',
    encode_loop (Z.of_nat n) pix st =
      (Done tt,
       {| destPix :=
            take n (destPix st)
            ++ embed_bits (Z.of_nat n) pix (remaining_bits (r st))
            ++ drop (n + length pix) (destPix st);
          r := r' |}).
Proof.
  induction pix as [|b rest IH]; intros n st Hlen Hp Hpix.
  - exists (r st). cbn [encode_loop embed_bits length app].
    rewrite Nat.add_0_r, take_drop. destruct st; reflexivity.
  - apply Forall_cons in Hpix. destruct Hpix as [Hb Hrest].
    cbn [length] in Hlen. cbn [encode_loop]. unfold bind at 1.
    rewrite encode_body_spec by (assumption || lia).
    cbn [embed_bits].
    replace (Z.of_nat n + 1) with (Z.of_nat (S n)) by lia.
    assert (forall x, take (S n) (<[n := x]> (destPix st)) = take n (destPix st) ++ [x])
      as Htake.
    { intros x. rewrite (take_S_r _ _ x) by (apply list_lookup_insert_eq; lia).
      rewrite take_insert_ge by lia. reflexivity. }
    assert (forall x, drop (S n + length rest) (<[n := x]> (destPix st))
                      = drop (n + length (b :: rest)) (destPix st)) as Hdrop.
    { intros x. rewrite drop_insert_lt by lia. cbn [length]. f_equal. lia. }
    assert (forall st1 bits1 x,
              destPix st1 = <[n := x]> (destPix st) ->
              0 <= ptr (r st1) ->
              remaining_bits (r st1) = bits1 ->
              exists r',
                encode_loop (Z.of_nat (S n)) rest st1 =
                  (Done tt,
                   {| destPix :=
                        take n (destPix st)
                        ++ (x :: embed_bits (Z.of_nat (S n)) rest bits1)
                        ++ drop (n + length (b :: rest)) (destPix st);
                      r := r' |})) as Hnext.
    { intros st1 bits1 x Hd Hp1 Hbits1.
      destruct (IH (S n) st1) as [r' Hr']; [rewrite Hd, length_insert; lia
                                           | assumption | assumption |].
      exists r'. rewrite Hr', Hd, Htake, Hdrop, Hbits1, <- app_assoc. reflexivity. }
    destruct (eligible (Z.of_nat n)).
    + unfold remaining_bits at 1.
      destruct (bits_of (data (r st)) !! Z.to_nat (ptr (r st))) as [v|] eqn:Hv.
      * rewrite (drop_S _ v _ Hv). apply Hnext; cbn [destPix r ptr data].
        { reflexivity. }
        { lia. }
        { unfold remaining_bits. cbn [ptr data]. f_equal. lia. }
      * apply lookup_ge_None_1 in Hv. rewrite (drop_ge _ _ Hv).
        apply Hnext; cbn [destPix r]; [reflexivity | assumption |].
        unfold remaining_bits. apply drop_ge. exact Hv.
    + apply Hnext; cbn [destPix r]; [reflexivity | assumption | reflexivity].
Qed.

Lemma len_newBitReader (msg : list Z) : len (data (newBitReader msg)) = 8 + len msg.
Proof.
  unfold newBitReader, Write_uint32, PutUint32. cbn [data app].
  rewrite !len_cons. lia.
Qed.

(** When the size check lets the message pass, [encode] hands
    [embed_bits] of the frame's bits to [bmp.Encode]. *)
Lemma encode_done (srcPix msg : list Z) :
  Forall is_byte srcPix ->
  8 + len msg + len srcPix / 4 <= len srcPix ->
  exists r',
    encode srcPix msg =
      (Done (embed_bits 0 srcPix (bits_of (data (newBitReader msg)))),
       {| destPix := embed_bits 0 srcPix (bits_of (data (newBitReader msg)));
          r := r' |}).
Proof.
  intros Hpix Hcap.
  destruct (encode_loop_spec srcPix 0 (encode_init srcPix msg)) as [r' Hloop].
  { cbn [destPix encode_init]. rewrite length_replicate. lia. }
  { cbn. lia. }
  { assumption. }
  exists r'. unfold encode.
  cbv zeta. rewrite quot_nonneg by (apply len_nonneg || lia).
  cbn [encode_init r]. rewrite len_newBitReader.
  assert ((len srcPix <? 8 + len msg + len srcPix / 4) = false) as ->
    by (apply Z.ltb_ge; lia).
  change (Z.of_nat 0) with 0 in Hloop.
  unfold bind at 1. rewrite Hloop.
  unfold bind, get, ret. cbn [destPix fst snd r encode_init].
  cbn [take app Nat.add].
  rewrite drop_ge by (rewrite length_replicate; lia).
  rewrite app_nil_r. unfold remaining_bits. cbn [ptr newBitReader].
  change (Z.to_nat 0) with 0%nat. cbn [drop]. reflexivity.
Qed.

Lemma encode_fatal (srcPix msg : list Z) :
  len srcPix < 8 + len msg + len srcPix / 4 ->
  encode srcPix msg = (Fatal messageTooLarge, encode_init srcPix msg).
Proof.
  intros Hcap. unfold encode.
  cbv zeta. rewrite quot_nonneg by (apply len_nonneg || lia).
  cbn [encode_init r]. rewrite len_newBitReader.
  assert ((len srcPix <? 8 + len msg + len srcPix / 4) = true) as ->
    by (apply Z.ltb_lt; lia).
  reflexivity.
Qed.

(** ** The bits an embedded buffer carries *)

Lemma carried_bits_embed (pix : list Z) : forall (i : Z) (bits : list Z),
  Forall is_byte pix -> Forall is_bit bits ->
  lsb <$> eligible_bytes i (embed_bits i pix bits) =
    take (length (eligible_bytes i pix)) bits
    ++ drop (length bits) (lsb <$> eligible_bytes i pix).
Proof.
  induction pix as [|b rest IH]; intros i bits Hpix Hbits.
  - cbn [embed_bits eligible_bytes fmap list_fmap length take app].
    rewrite drop_nil. reflexivity.
  - apply Forall_cons in Hpix. destruct Hpix as [Hb Hrest].
    cbn [embed_bits eligible_bytes]. destruct (eligible i) eqn:Hi.
    + destruct bits as [|v bits'].
      * rewrite embed_bits_nil. cbn [eligible_bytes]. rewrite Hi.
        rewrite take_nil. reflexivity.
      * apply Forall_cons in Hbits. destruct Hbits as [Hv Hbits'].
        cbn [eligible_bytes]. rewrite Hi. cbn [fmap list_fmap length take drop].
        rewrite set_lsb_lsb by assumption. cbn [app]. f_equal.
        apply IH; assumption.
    + cbn [eligible_bytes]. rewrite Hi. apply IH; assumption.
Qed.

Lemma byte_of_bits_of_byte (d : Z) :
  is_byte d ->
  byte_of_bits (bit_of_byte d 0) (bit_of_byte d 1) (bit_of_byte d 2)
    (bit_of_byte d 3) (bit_of_byte d 4) (bit_of_byte d 5) (bit_of_byte d 6)
    (bit_of_byte d 7) = d.
Proof.
  intros Hd. unfold is_byte in Hd. unfold byte_of_bits, bit_of_byte.
  change (2 ^ (7 - 0)) with 128. change (2 ^ (7 - 1)) with 64.
  change (2 ^ (7 - 2)) with 32. change (2 ^ (7 - 3)) with 16.
  change (2 ^ (7 - 4)) with 8. change (2 ^ (7 - 5)) with 4.
  change (2 ^ (7 - 6)) with 2. change (2 ^ (7 - 7)) with 1.
  zdm.
Qed.

(** Packing the bit view of a byte buffer gives the buffer back. *)
Lemma pack_bits_of (data : list Z) (tail : list Z) :
  Forall is_byte data ->
  pack_bits (bits_of data ++ tail) = data ++ pack_bits tail.
Proof.
  induction data as [|d rest IH]; intros Hdata; [reflexivity|].
  apply Forall_cons in Hdata. destruct Hdata as [Hd Hrest].
  cbn [bits_of bits_of_byte app pack_bits].
  rewrite byte_of_bits_of_byte by assumption. rewrite IH by assumption.
  reflexivity.
Qed.

(** ** Big-endian words *)

Lemma lor_shiftl_add (x y k : Z) :
  0 <= k -> 0 <= x < 2 ^ k -> Z.lor x (Z.shiftl y k) = x + y * 2 ^ k.
Proof.
  intros Hk Hx. rewrite Z.or_to_plus.
  { rewrite Z.shiftl_mul_pow2 by lia. reflexivity. }
  apply Z.bits_inj'. intros i Hi. rewrite Z.land_spec, Z.bits_0.
  destruct (Z.lt_ge_cases i k) as [Hlt | Hge].
  - rewrite Z.shiftl_spec_low by assumption. apply andb_false_r.
  - rewrite <- (Z.mod_small x (2 ^ k)) by assumption.
    rewrite Z.mod_pow2_bits_high by lia. reflexivity.
Qed.

Lemma Uint32_value (b0 b1 b2 b3 : Z) :
  is_byte b0 -> is_byte b1 -> is_byte b2 -> is_byte b3 ->
  Uint32 b0 b1 b2 b3 = big_endian_value b0 b1 b2 b3.
Proof.
  unfold is_byte, Uint32, big_endian_value. intros H0 H1 H2 H3.
  rewrite (lor_shiftl_add b3 b2 8) by lia.
  rewrite (lor_shiftl_add _ b1 16) by lia.
  rewrite (lor_shiftl_add _ b0 24) by lia.
  lia.
Qed.

Lemma PutUint32_big_endian4 (v : Z) : PutUint32 v = big_endian4 v.
Proof.
  unfold PutUint32, big_endian4, uint8.
  rewrite !Z.shiftr_div_pow2 by lia. reflexivity.
Qed.

Lemma big_endian4_bytes (v : Z) : Forall is_byte (big_endian4 v).
Proof.
  unfold big_endian4, is_byte.
  repeat (constructor; [apply Z.mod_pos_bound; lia|]). constructor.
Qed.

Lemma big_endian_value_4 (v : Z) :
  0 <= v < 2 ^ 32 ->
  big_endian_value ((v / 2 ^ 24) mod 256) ((v / 2 ^ 16) mod 256)
    ((v / 2 ^ 8) mod 256) (v mod 256) = v.
Proof.
  intros Hv. unfold big_endian_value.
  change (2 ^ 32) with 4294967296 in Hv.
  change (2 ^ 24) with 16777216. change (2 ^ 16) with 65536.
  change (2 ^ 8) with 256. zdm.
Qed.

(** Reading back a word that was written. *)
Lemma Read_uint32_big_endian4 (v x : Z) (rest : list Z) :
  0 <= v < 2 ^ 32 ->
  Read_uint32 (big_endian4 v ++ rest) x = (v, rest).
Proof.
  intros Hv. pose proof (big_endian4_bytes v) as Hb.
  unfold big_endian4 in *. cbn [app Read_uint32].
  repeat (apply Forall_cons in Hb; destruct Hb as [? Hb]).
  rewrite Uint32_value by assumption.
  rewrite big_endian_value_4 by assumption. reflexivity.
Qed.

(** ** Adler-32 *)

Lemma adler32_fold_range (p : list Z) : forall (d : Z * Z),
  0 <= fst d < adler32_mod -> 0 <= snd d < adler32_mod ->
  0 <= fst (fold_left adler32_update p d) < adler32_mod
  /\ 0 <= snd (fold_left adler32_update p d) < adler32_mod.
Proof.
  unfold adler32_mod.
  induction p as [|x rest IH]; intros d H1 H2; [split; assumption|].
  cbn [fold_left]. apply IH; unfold adler32_update, adler32_mod; cbn [fst snd];
    apply Z.mod_pos_bound; lia.
Qed.

Lemma Checksum_sums (p : list Z) :
  Checksum p =
    fst (fold_left adler32_update p (1, 0))
    + snd (fold_left adler32_update p (1, 0)) * 2 ^ 16.
Proof.
  unfold Checksum. cbv zeta.
  destruct (adler32_fold_range p (1, 0)) as [H1 H2];
    [unfold adler32_mod; cbn; lia..|].
  unfold adler32_mod in *.
  rewrite Z.lor_comm. apply lor_shiftl_add; lia.
Qed.

Lemma Checksum_range (p : list Z) : 0 <= Checksum p < 2 ^ 32.
Proof.
  rewrite Checksum_sums.
  destruct (adler32_fold_range p (1, 0)) as [H1 H2];
    [unfold adler32_mod; cbn; lia..|].
  unfold adler32_mod in *. lia.
Qed.

(** ** The frame *)

Lemma newBitReader_data (msg : list Z) :
  data (newBitReader msg) =
    big_endian4 (uint32 (len msg)) ++ big_endian4 (Checksum msg) ++ msg.
Proof.
  unfold newBitReader, Write_uint32. cbn [data app].
  rewrite !PutUint32_big_endian4, <- app_assoc. reflexivity.
Qed.

Lemma uint32_small (v : Z) : 0 <= v < 2 ^ 32 -> uint32 v = v.
Proof. intros Hv. unfold uint32. apply Z.mod_small. assumption. Qed.

Lemma uint32_range (v : Z) : 0 <= uint32 v < 2 ^ 32.
Proof. unfold uint32. apply Z.mod_pos_bound. lia. Qed.

(** Four big-endian bytes hold the low 32 bits. *)
Lemma big_endian4_uint32 (v : Z) : big_endian4 (uint32 v) = big_endian4 v.
Proof.
  unfold big_endian4, uint32.
  change (2 ^ 32) with 4294967296. change (2 ^ 24) with 16777216.
  change (2 ^ 16) with 65536. change (2 ^ 8) with 256.
  assert ((v mod 4294967296 / 16777216) mod 256 = (v / 16777216) mod 256) as -> by zdm.
  assert ((v mod 4294967296 / 65536) mod 256 = (v / 65536) mod 256) as -> by zdm.
  assert ((v mod 4294967296 / 256) mod 256 = (v / 256) mod 256) as -> by zdm.
  assert ((v mod 4294967296) mod 256 = v mod 256) as -> by zdm.
  reflexivity.
Qed.

Lemma newBitReader_frame (msg : list Z) : data (newBitReader msg) = frame msg.
Proof. rewrite newBitReader_data. reflexivity. Qed.

(** The 4 bytes of the size, without the conversion. *)
Lemma frame_words (msg : list Z) :
  frame msg = big_endian4 (len msg) ++ big_endian4 (Checksum msg) ++ msg.
Proof. unfold frame. rewrite big_endian4_uint32. reflexivity. Qed.

Lemma decode_header_words (size hash : Z) (rest : list Z) :
  0 <= size < 2 ^ 32 -> 0 <= hash < 2 ^ 32 ->
  decode_header (big_endian4 size ++ big_endian4 hash ++ rest) = (size, hash, rest).
Proof.
  intros Hs Hh. unfold decode_header.
  rewrite Read_uint32_big_endian4 by assumption.
  rewrite Read_uint32_big_endian4 by assumption. reflexivity.
Qed.

(** [int(x)] on the two widths. *)
Lemma int_of_uint32_le (bits x : Z) :
  0 < bits -> 0 <= x -> int_of_uint32 bits x <= x.
Proof.
  intros Hb Hx. unfold int_of_uint32.
  assert (0 < 2 ^ (bits - 1)) by (apply Z.pow_pos_nonneg; lia).
  assert (0 < 2 ^ bits) by (apply Z.pow_pos_nonneg; lia).
  pose proof (Z.mod_le (x + 2 ^ (bits - 1)) (2 ^ bits)). lia.
Qed.

Lemma int_of_uint32_64 (x : Z) : 0 <= x < 2 ^ 63 -> int_of_uint32 64 x = x.
Proof.
  intros Hx. unfold int_of_uint32.
  change (2 ^ (64 - 1)) with 9223372036854775808 in *.
  change (2 ^ 63) with 9223372036854775808 in *.
  change (2 ^ 64) with 18446744073709551616. zdm.
Qed.

Lemma int_of_uint32_32 (x : Z) :
  0 <= x < 2 ^ 32 ->
  int_of_uint32 32 x = if 2 ^ 31 <=? x then x - 2 ^ 32 else x.
Proof.
  intros Hx. unfold int_of_uint32.
  change (2 ^ (32 - 1)) with 2147483648.
  change (2 ^ 31) with 2147483648. change (2 ^ 32) with 4294967296 in *.
  destruct (2147483648 <=? x) eqn:Hc;
    [apply Z.leb_le in Hc | apply Z.leb_gt in Hc]; zdm.
Qed.

(** [decode] after its header reads, by cases, on either width. *)
Lemma decode_message_on_cases (bits : Z) (buf : list Z) (size hash : Z) (msg : list Z) :
  0 < bits ->
  decode_header buf = (size, hash, msg) ->
  0 <= size ->
  decode_message_on bits buf =
    if len msg <? size then
      if len msg <? int_of_uint32 bits size then Fatal noHiddenMessage else Panic
    else if Checksum (take (Z.to_nat size) msg) =? hash
         then Done (take (Z.to_nat size) msg)
         else Fatal noHiddenMessage.
Proof.
  intros Hb Hh Hs. unfold decode_message_on. rewrite Hh.
  pose proof (int_of_uint32_le bits size Hb Hs) as Hi.
  destruct (len msg <? size) eqn:Hlt.
  - apply Z.ltb_lt in Hlt.
    destruct (len msg <? int_of_uint32 bits size); [reflexivity|].
    unfold slice_to.
    assert ((size <=? len msg) = false) as -> by (apply Z.leb_gt; lia).
    rewrite andb_false_r. reflexivity.
  - apply Z.ltb_ge in Hlt.
    assert ((len msg <? int_of_uint32 bits size) = false) as ->
      by (apply Z.ltb_ge; lia).
    unfold slice_to.
    assert ((0 <=? size) && (size <=? len msg) = true) as ->.
    { apply andb_true_iff. split; apply Z.leb_le; lia. }
    destruct (Checksum (take (Z.to_nat size) msg) =? hash); reflexivity.
Qed.

(** The same in a build whose [int] has 64 bits. *)
Lemma decode_message_cases (buf : list Z) (size hash : Z) (msg : list Z) :
  decode_header buf = (size, hash, msg) ->
  0 <= size ->
  size < 2 ^ 63 \/ size <= len msg ->
  decode_message buf =
    if len msg <? size then Fatal noHiddenMessage
    else if Checksum (take (Z.to_nat size) msg) =? hash
         then Done (take (Z.to_nat size) msg)
         else Fatal noHiddenMessage.
Proof.
  intros Hh Hs Hr. unfold decode_message.
  rewrite (decode_message_on_cases 64 _ _ _ _ ltac:(lia) Hh Hs).
  destruct (len msg <? size) eqn:Hlt; [|reflexivity].
  apply Z.ltb_lt in Hlt.
  rewrite int_of_uint32_64 by lia.
  apply Z.ltb_lt in Hlt. rewrite Hlt. reflexivity.
Qed.

(** A frame followed by anything decodes to its payload, on either
    width. *)
Lemma decode_message_on_frame (bits : Z) (msg tail : list Z) :
  0 < bits ->
  len msg < 2 ^ 32 ->
  decode_message_on bits (frame msg ++ tail) = Done msg.
Proof.
  intros Hb Hlen. pose proof (len_nonneg msg) as Hn.
  rewrite frame_words, <- !app_assoc.
  rewrite (decode_message_on_cases bits _ (len msg) (Checksum msg) (msg ++ tail));
    [| lia | apply decode_header_words; [lia | apply Checksum_range] | lia].
  rewrite len_app. pose proof (len_nonneg tail).
  assert ((len msg + len tail <? len msg) = false) as -> by (apply Z.ltb_ge; lia).
  unfold len at 1 2. rewrite Nat2Z.id, take_app_length, Z.eqb_refl. reflexivity.
Qed.

Lemma decode_message_frame (msg tail : list Z) :
  len msg < 2 ^ 32 ->
  decode_message (frame msg ++ tail) = Done msg.
Proof. apply decode_message_on_frame. lia. Qed.

Lemma frame_bytes (msg : list Z) : Forall is_byte msg -> Forall is_byte (frame msg).
Proof.
  intros Hmsg. unfold frame.
  repeat (apply Forall_app; split); (apply big_endian4_bytes || assumption).
Qed.

Lemma newBitReader_bytes (msg : list Z) :
  Forall is_byte msg -> Forall is_byte (data (newBitReader msg)).
Proof.
  intros Hmsg. rewrite newBitReader_data.
  repeat (apply Forall_app; split); (apply big_endian4_bytes || assumption).
Qed.

(** ** Embedding, then extracting *)

(** What [decode] gathers from an embedded buffer starts with the
    embedded bytes, when all their bits found an eligible byte. *)
Lemma extract_embed (pix data : list Z) :
  Forall is_byte pix -> Forall is_byte data ->
  8 * len data <= eligible_count pix ->
  exists tail, extract (embed_bits 0 pix (bits_of data)) = data ++ tail.
Proof.
  intros Hpix Hdata Hcap. unfold extract, carried_bits.
  rewrite carried_bits_embed by (assumption || apply bits_of_are_bits).
  rewrite take_ge.
  - rewrite pack_bits_of by assumption. eauto.
  - unfold eligible_count, len in Hcap. rewrite length_bits_of. lia.
Qed.

(** The capacity relation implies the size check of [encode]. *)
Lemma capacity_passes_check (pix msg : list Z) :
  8 * (8 + len msg) <= eligible_count pix ->
  8 + len msg + len pix / 4 <= len pix.
Proof.
  rewrite eligible_count_formula. pose proof (len_nonneg msg). lia.
Qed.

Lemma roundtrip_u32 (pix msg : list Z) :
  Forall is_byte pix -> Forall is_byte msg ->
  len msg < 2 ^ 32 ->
  8 * (8 + len msg) <= eligible_count pix ->
  exists out, encoded pix msg = Done out /\ decode out = Done msg.
Proof.
  intros Hpix Hmsg Hlen Hcap.
  destruct (encode_done pix msg Hpix (capacity_passes_check _ _ Hcap)) as [r' Henc].
  eexists. split; [unfold encoded; rewrite Henc; reflexivity|].
  unfold decode. rewrite decode_pixels_extract.
  destruct (extract_embed pix (data (newBitReader msg))) as [tail ->];
    [assumption | apply newBitReader_bytes; assumption
     | rewrite len_newBitReader; assumption |].
  rewrite newBitReader_frame.
  apply decode_message_frame. assumption.
Qed.

(** ** Payloads of [2 ^ 32] bytes and more: the size field wraps *)

Lemma decode_message_length (buf out : list Z) :
  Forall is_byte buf -> decode_message buf = Done out -> len out < 2 ^ 32.
Proof.
  intros Hbuf. unfold decode_message, decode_message_on, decode_header.
  assert (forall l x, Forall is_byte l ->
            (0 <= x < 2 ^ 32 -> 0 <= fst (Read_uint32 l x) < 2 ^ 32)
            /\ Forall is_byte (snd (Read_uint32 l x))) as Hread.
  { intros l x Hl. destruct l as [|b0 [|b1 [|b2 [|b3 rest]]]];
      cbn [Read_uint32 fst snd]; try (split; [tauto | constructor]).
    repeat (apply Forall_cons in Hl; destruct Hl as [? Hl]).
    split; [|assumption]. intros _. rewrite Uint32_value by assumption.
    unfold big_endian_value, is_byte in *. lia. }
  destruct (Hread buf 0 Hbuf) as [Hsize Hrest].
  destruct (Read_uint32 buf 0) as [size rest]. cbn [fst snd] in *.
  destruct (Read_uint32 rest 0) as [hash msg].
  specialize (Hsize ltac:(lia)).
  rewrite int_of_uint32_64 by lia.
  destruct (len msg <? size) eqn:Hlt; [discriminate|].
  apply Z.ltb_ge in Hlt. unfold slice_to.
  assert ((0 <=? size) && (size <=? len msg) = true) as ->.
  { apply andb_true_iff. split; apply Z.leb_le; lia. }
  destruct (negb (Checksum (take (Z.to_nat size) msg) =? hash)); [discriminate|].
  intros [= <-]. unfold len in *. rewrite length_take. lia.
Qed.

Lemma extract_bytes_of_bits (bits : list Z) :
  Forall is_bit bits -> Forall is_byte (pack_bits bits).
Proof.
  induction bits as [l Hl | a0 a1 a2 a3 a4 a5 a6 a7 rest IH] using list_ind_8;
    intros Hbits.
  - rewrite pack_bits_short by assumption. constructor.
  - repeat (apply Forall_cons in Hbits; destruct Hbits as [? Hbits]).
    cbn [pack_bits]. constructor; [|apply IH; assumption].
    unfold is_byte, byte_of_bits, is_bit in *. lia.
Qed.

Lemma extract_bytes (pix : list Z) : Forall is_byte (extract pix).
Proof. apply extract_bytes_of_bits, carried_bits_are_bits. Qed.

(** No payload of [2 ^ 32] bytes or more comes back. *)
Lemma roundtrip_wraps (pix msg : list Z) :
  Forall is_byte pix ->
  2 ^ 32 <= len msg ->
  8 * (8 + len msg) <= eligible_count pix ->
  exists out, encoded pix msg = Done out /\ decode out <> Done msg.
Proof.
  intros Hpix Hlen Hcap.
  destruct (encode_done pix msg Hpix (capacity_passes_check _ _ Hcap)) as [r' Henc].
  eexists. split; [unfold encoded; rewrite Henc; reflexivity|].
  unfold decode. rewrite decode_pixels_extract. intros Hdec.
  apply decode_message_length in Hdec; [lia | apply extract_bytes].
Qed.

Lemma adler32_zeros (n : nat) : forall (s2 : Z),
  0 <= s2 < adler32_mod ->
  fold_left adler32_update (replicate n 0) (1, s2)
  = (1, (s2 + Z.of_nat n) mod adler32_mod).
Proof.
  unfold adler32_mod.
  induction n as [|n IH]; intros s2 Hs.
  - cbn [replicate fold_left]. rewrite Z.add_0_r, Z.mod_small by lia. reflexivity.
  - cbn [replicate fold_left]. unfold adler32_update at 2. cbn [fst snd].
    unfold adler32_mod. change ((1 + 0) mod 65521) with 1.
    rewrite IH by (apply Z.mod_pos_bound; lia). f_equal.
    rewrite Nat2Z.inj_succ. zdm.
Qed.

Lemma Checksum_zeros (n : nat) :
  Checksum (replicate n 0) = 1 + (Z.of_nat n mod adler32_mod) * 2 ^ 16.
Proof.
  rewrite Checksum_sums, adler32_zeros by (unfold adler32_mod; lia).
  cbn [fst snd]. rewrite Z.add_0_l. reflexivity.
Qed.

Lemma len_replicate {A : Type} (n : Z) (x : A) :
  0 <= n -> len (replicate (Z.to_nat n) x) = n.
Proof. intros Hn. unfold len. rewrite length_replicate. lia. Qed.

Lemma replicate_bytes (n : nat) (x : Z) : is_byte x -> Forall is_byte (replicate n x).
Proof. intros Hx. apply Forall_replicate. assumption. Qed.

Lemma len_payload_4GiB : len payload_4GiB = 2 ^ 32.
Proof. unfold payload_4GiB. apply len_replicate. lia. Qed.

Lemma len_carrier_4GiB : len carrier_4GiB = 45812984576.
Proof. unfold carrier_4GiB. apply len_replicate. lia. Qed.

Lemma Checksum_payload_4GiB : Checksum payload_4GiB = 14745601.
Proof.
  unfold payload_4GiB. rewrite Checksum_zeros, Z2Nat.id by lia. reflexivity.
Qed.

Lemma capacity_4GiB : 8 * (8 + len payload_4GiB) <= eligible_count carrier_4GiB.
Proof.
  rewrite eligible_count_formula, len_payload_4GiB, len_carrier_4GiB.
  reflexivity.
Qed.

Lemma decode_4GiB :
  exists out,
    encoded carrier_4GiB payload_4GiB = Done out
    /\ decode out = Fatal noHiddenMessage.
Proof.
  assert (Forall is_byte carrier_4GiB) as Hpix
    by (apply replicate_bytes; unfold is_byte; lia).
  destruct (encode_done carrier_4GiB payload_4GiB Hpix
              (capacity_passes_check _ _ capacity_4GiB)) as [r' Henc].
  eexists. split; [unfold encoded; rewrite Henc; reflexivity|].
  unfold decode. rewrite decode_pixels_extract.
  destruct (extract_embed carrier_4GiB (data (newBitReader payload_4GiB)))
    as [tail ->];
    [assumption
    | apply newBitReader_bytes, replicate_bytes; unfold is_byte; lia
    | rewrite len_newBitReader; apply capacity_4GiB |].
  rewrite newBitReader_data, len_payload_4GiB, Checksum_payload_4GiB.
  change (uint32 (2 ^ 32)) with 0. rewrite <- !app_assoc.
  rewrite (decode_message_cases _ 0 14745601 (payload_4GiB ++ tail));
    [| apply decode_header_words; lia | lia | lia].
  assert ((len (payload_4GiB ++ tail) <? 0) = false) as ->
    by (apply Z.ltb_ge, len_nonneg).
  reflexivity.
Qed.

(** ** Adler-32 sees every single flipped bit *)

Lemma sum_bytes_app (l k : list Z) : sum_bytes (l ++ k) = sum_bytes l + sum_bytes k.
Proof.
  unfold sum_bytes. induction l as [|x l IH]; cbn [app foldr]; lia.
Qed.

(** The low sum is the initial one plus the sum of the bytes, modulo 65521. *)
Lemma adler32_low_sum (p : list Z) : forall (d : Z * Z),
  0 <= fst d < adler32_mod ->
  fst (fold_left adler32_update p d) = (fst d + sum_bytes p) mod adler32_mod.
Proof.
  unfold adler32_mod, sum_bytes.
  induction p as [|x rest IH]; intros d Hd.
  - cbn [fold_left foldr]. rewrite Z.add_0_r, Z.mod_small by assumption.
    reflexivity.
  - cbn [fold_left foldr]. rewrite IH.
    + unfold adler32_update, adler32_mod. cbn [fst].
      generalize (foldr Z.add 0 rest). intros s. zdm.
    + unfold adler32_update, adler32_mod. cbn [fst].
      apply Z.mod_pos_bound. lia.
Qed.

Lemma Checksum_low (p : list Z) :
  Checksum p mod 2 ^ 16 = (1 + sum_bytes p) mod adler32_mod.
Proof.
  rewrite Checksum_sums.
  destruct (adler32_fold_range p (1, 0)) as [H1 H2];
    [unfold adler32_mod; cbn; lia..|].
  rewrite Z.mod_add by lia.
  rewrite Z.mod_small by (unfold adler32_mod in *; lia).
  apply adler32_low_sum. unfold adler32_mod. cbn. lia.
Qed.

(** Flipping a bit of a byte moves it by a power of two. *)
Lemma flip_bit_distance (b k : Z) :
  is_byte b -> 0 <= k < 8 ->
  1 <= Z.abs (flip_bit b k - b) <= 128.
Proof.
  intros Hb Hk.
  pose (P := fun k b =>
    (1 <=? Z.abs (flip_bit b k - b)) && (Z.abs (flip_bit b k - b) <=? 128)).
  assert (P k b = true) as HP.
  { assert (k = 0 \/ k = 1 \/ k = 2 \/ k = 3 \/ k = 4 \/ k = 5 \/ k = 6 \/ k = 7)
      as Hcases by lia.
    destruct Hcases as [-> | [-> | [-> | [-> | [-> | [-> | [-> | ->]]]]]]];
      apply byte_cases; try assumption; vm_compute; reflexivity. }
  apply andb_true_iff in HP. destruct HP as [H1 H2].
  apply Z.leb_le in H1. apply Z.leb_le in H2. lia.
Qed.

Lemma Checksum_flip (l1 l2 : list Z) (b k : Z) :
  is_byte b -> 0 <= k < 8 ->
  Checksum (l1 ++ flip_bit b k :: l2) <> Checksum (l1 ++ b :: l2).
Proof.
  intros Hb Hk Heq.
  apply (f_equal (fun c => c mod 2 ^ 16)) in Heq.
  rewrite !Checksum_low in Heq.
  rewrite !sum_bytes_app in Heq. unfold sum_bytes in Heq at 2 4.
  cbn [foldr] in Heq. fold (sum_bytes l2) in Heq.
  pose proof (flip_bit_distance b k Hb Hk) as Hd.
  unfold adler32_mod in Heq.
  generalize dependent (flip_bit b k). intros b' Heq Hd.
  generalize dependent (sum_bytes l1). intros x1.
  generalize dependent (sum_bytes l2). intros x2. zdm.
Qed.

(** ** Flipped bits in the gathered bytes *)

Lemma decode_header_8 (b0 b1 b2 b3 b4 b5 b6 b7 : Z) (rest : list Z) :
  decode_header (b0 :: b1 :: b2 :: b3 :: b4 :: b5 :: b6 :: b7 :: rest)
  = (Uint32 b0 b1 b2 b3, Uint32 b4 b5 b6 b7, rest).
Proof. reflexivity. Qed.

(** With fewer than 8 bytes there is nothing to check the sum of. *)
Lemma decode_header_short (buf : list Z) :
  len buf < 8 -> exists size, decode_header buf = (size, 0, []).
Proof.
  intros Hlen.
  destruct buf as [|b0 [|b1 [|b2 [|b3 [|b4 [|b5 [|b6 [|b7 rest]]]]]]]];
    try (eexists; reflexivity).
  rewrite !len_cons in Hlen. pose proof (len_nonneg rest). lia.
Qed.

(** What a successful [decode] says about the gathered bytes. *)
Lemma decode_message_done (buf msg : list Z) :
  decode_message buf = Done msg ->
  exists b0 b1 b2 b3 b4 b5 b6 b7 rest,
    buf = b0 :: b1 :: b2 :: b3 :: b4 :: b5 :: b6 :: b7 :: rest
    /\ 0 <= Uint32 b0 b1 b2 b3 <= len rest
    /\ msg = take (Z.to_nat (Uint32 b0 b1 b2 b3)) rest
    /\ Checksum msg = Uint32 b4 b5 b6 b7.
Proof.
  intros Hdec.
  assert (forall size hash rest,
            decode_header buf = (size, hash, rest) ->
            0 <= size <= len rest
            /\ msg = take (Z.to_nat size) rest /\ Checksum msg = hash) as Hinv.
  { intros size hash rest Hh. unfold decode_message, decode_message_on in Hdec.
    rewrite Hh in Hdec.
    destruct (len rest <? int_of_uint32 64 size); [discriminate|].
    unfold slice_to in Hdec.
    destruct (0 <=? size) eqn:H0; cbn [andb] in Hdec; [|discriminate].
    apply Z.leb_le in H0.
    destruct (size <=? len rest) eqn:Hle; [|discriminate].
    apply Z.leb_le in Hle.
    destruct (Checksum (take (Z.to_nat size) rest) =? hash) eqn:Hc;
      cbn [negb] in Hdec; [|discriminate].
    apply Z.eqb_eq in Hc. injection Hdec as <-. auto. }
  destruct (Z.lt_ge_cases (len buf) 8) as [Hshort | Hlong].
  - destruct (decode_header_short buf Hshort) as [size Hh].
    destruct (Hinv _ _ _ Hh) as (_ & -> & Hc).
    rewrite take_nil in Hc. discriminate Hc.
  - destruct buf as [|b0 [|b1 [|b2 [|b3 [|b4 [|b5 [|b6 [|b7 rest]]]]]]]];
      try (unfold len in Hlong; cbn [length] in Hlong; lia).
    exists b0, b1, b2, b3, b4, b5, b6, b7, rest.
    split; [reflexivity|]. apply Hinv, decode_header_8.
Qed.

(** One bit flipped in byte [len s1] of the gathered bytes: within the
    declared payload the checksum test fails, beyond it nothing changes. *)
Lemma decode_message_flip (s1 s2 : list Z) (b k : Z) (msg : list Z) :
  is_byte b -> 0 <= k < 8 ->
  decode_message (s1 ++ b :: s2) = Done msg ->
  (8 <= len s1 < 8 + len msg ->
     decode_message (s1 ++ flip_bit b k :: s2) = Fatal noHiddenMessage)
  /\ (8 + len msg <= len s1 ->
     decode_message (s1 ++ flip_bit b k :: s2) = Done msg).
Proof.
  intros Hb Hk Hdec.
  destruct (decode_message_done _ _ Hdec)
    as (b0 & b1 & b2 & b3 & b4 & b5 & b6 & b7 & rest & Hbuf & Hsize & Hmsg & Hsum).
  assert (8 <= len s1 ->
          exists t1, s1 = b0 :: b1 :: b2 :: b3 :: b4 :: b5 :: b6 :: b7 :: t1
                     /\ rest = t1 ++ b :: s2 /\ len s1 = 8 + len t1) as Hsplit.
  { intros H8.
    destruct s1 as [|c0 [|c1 [|c2 [|c3 [|c4 [|c5 [|c6 [|c7 t1]]]]]]]];
      try (unfold len in H8; cbn [length] in H8; lia).
    cbn [app] in Hbuf. injection Hbuf as -> -> -> -> -> -> -> -> <-.
    exists t1. rewrite !len_cons. repeat split; lia. }
  assert (len msg = Uint32 b0 b1 b2 b3) as Hlen.
  { rewrite Hmsg. unfold len in *. rewrite length_take. lia. }
  set (size := Uint32 b0 b1 b2 b3) in *.
  assert (forall t1,
            s1 = b0 :: b1 :: b2 :: b3 :: b4 :: b5 :: b6 :: b7 :: t1 ->
            decode_message (s1 ++ flip_bit b k :: s2) =
              if Checksum (take (Z.to_nat size) (t1 ++ flip_bit b k :: s2))
                 =? Uint32 b4 b5 b6 b7
              then Done (take (Z.to_nat size) (t1 ++ flip_bit b k :: s2))
              else Fatal noHiddenMessage) as Hflip.
  { intros t1 ->. cbn [app].
    assert (size <= len (t1 ++ flip_bit b k :: s2)) as Hfit.
    { destruct (Hsplit ltac:(rewrite !len_cons; pose proof (len_nonneg t1); lia))
        as (t1' & Ht & Hrest & _).
      injection Ht as <-. rewrite Hrest in Hsize.
      rewrite len_app, len_cons in *. lia. }
    rewrite (decode_message_cases _ _ _ _ (decode_header_8 _ _ _ _ _ _ _ _ _))
      by (fold size; lia).
    fold size.
    assert ((len (t1 ++ flip_bit b k :: s2) <? size) = false) as ->; [|reflexivity].
    apply Z.ltb_ge. exact Hfit. }
  split; intros Hpos; destruct (Hsplit ltac:(lia)) as (t1 & Hs1 & Hrest & Hl);
    rewrite (Hflip t1 Hs1).
  - assert (Z.to_nat size = length t1 + S (Z.to_nat size - length t1 - 1))%nat
      as Hn by (unfold len in *; lia).
    assert (take (Z.to_nat size) (t1 ++ flip_bit b k :: s2)
            = t1 ++ flip_bit b k :: take (Z.to_nat size - length t1 - 1) s2) as ->.
    { rewrite Hn at 1. rewrite take_app_add. reflexivity. }
    assert (msg = t1 ++ b :: take (Z.to_nat size - length t1 - 1) s2) as Hm.
    { rewrite Hmsg, Hrest. rewrite Hn at 1. rewrite take_app_add. reflexivity. }
    rewrite <- Hsum, Hm.
    destruct (Z.eqb_spec (Checksum (t1 ++ flip_bit b k :: take (Z.to_nat size - length t1 - 1) s2))
                         (Checksum (t1 ++ b :: take (Z.to_nat size - length t1 - 1) s2)))
      as [Heq | _]; [|reflexivity].
    exfalso. exact (Checksum_flip _ _ _ _ Hb Hk Heq).
  - assert (take (Z.to_nat size) (t1 ++ flip_bit b k :: s2) = msg) as ->.
    { rewrite Hmsg, Hrest, !take_app_le by (unfold len in *; lia). reflexivity. }
    rewrite Hsum, Z.eqb_refl. reflexivity.
Qed.

(** ** Flipped bits in the carried stream *)

#[local] Arguments byte_of_bits : simpl never.
#[local] Arguments flip_bit : simpl never.

(** One of the eight bits of a byte replaced by its complement. *)
Lemma byte_of_bits_flip (v0 v1 v2 v3 v4 v5 v6 v7 : Z) :
  is_bit v0 -> is_bit v1 -> is_bit v2 -> is_bit v3 ->
  is_bit v4 -> is_bit v5 -> is_bit v6 -> is_bit v7 ->
  let B := byte_of_bits v0 v1 v2 v3 v4 v5 v6 v7 in
  byte_of_bits (1 - v0) v1 v2 v3 v4 v5 v6 v7 = flip_bit B 7
  /\ byte_of_bits v0 (1 - v1) v2 v3 v4 v5 v6 v7 = flip_bit B 6
  /\ byte_of_bits v0 v1 (1 - v2) v3 v4 v5 v6 v7 = flip_bit B 5
  /\ byte_of_bits v0 v1 v2 (1 - v3) v4 v5 v6 v7 = flip_bit B 4
  /\ byte_of_bits v0 v1 v2 v3 (1 - v4) v5 v6 v7 = flip_bit B 3
  /\ byte_of_bits v0 v1 v2 v3 v4 (1 - v5) v6 v7 = flip_bit B 2
  /\ byte_of_bits v0 v1 v2 v3 v4 v5 (1 - v6) v7 = flip_bit B 1
  /\ byte_of_bits v0 v1 v2 v3 v4 v5 v6 (1 - v7) = flip_bit B 0.
Proof.
  unfold is_bit.
  intros [-> | ->] [-> | ->] [-> | ->] [-> | ->] [-> | ->] [-> | ->] [-> | ->] [-> | ->];
    vm_compute; repeat split.
Qed.

Lemma nat_div_mod_8 (n : nat) :
  (S (S (S (S (S (S (S (S n))))))) / 8 = S (n / 8)
   /\ S (S (S (S (S (S (S (S n))))))) mod 8 = n mod 8)%nat.
Proof.
  change (S (S (S (S (S (S (S (S n)))))))) with (8 + n)%nat.
  split.
  - replace (8 + n)%nat with (n + 1 * 8)%nat by lia.
    rewrite Nat.div_add by lia. lia.
  - replace (8 + n)%nat with (n + 1 * 8)%nat by lia.
    apply Nat.Div0.mod_add.
Qed.

(** Flipping bit [n] of the stream flips bit [7 - n mod 8] of byte
    [n / 8], when the stream is long enough to give that byte. *)
Lemma pack_bits_flip (bits : list Z) : forall (n : nat) (v : Z),
  Forall is_bit bits -> bits !! n = Some v ->
  pack_bits (<[n := 1 - v]> bits) =
    match pack_bits bits !! (n / 8)%nat with
    | Some B => <[(n / 8)%nat := flip_bit B (7 - Z.of_nat (n mod 8))]> (pack_bits bits)
    | None => pack_bits bits
    end.
Proof.
  induction bits as [l Hl | a0 a1 a2 a3 a4 a5 a6 a7 rest IH] using list_ind_8;
    intros n v Hbits Hn.
  - rewrite (pack_bits_short l) by assumption.
    rewrite pack_bits_short by (rewrite length_insert; assumption).
    reflexivity.
  - repeat (apply Forall_cons in Hbits; destruct Hbits as [? Hbits]).
    destruct (byte_of_bits_flip a0 a1 a2 a3 a4 a5 a6 a7)
      as (F0 & F1 & F2 & F3 & F4 & F5 & F6 & F7); try assumption.
    do 8 (destruct n as [|n];
          [ cbn in Hn; injection Hn as <-; cbn;
            first [ rewrite F0 | rewrite F1 | rewrite F2 | rewrite F3
                  | rewrite F4 | rewrite F5 | rewrite F6 | rewrite F7 ];
            reflexivity |]).
    destruct (nat_div_mod_8 n) as [-> ->].
    change (<[S (S (S (S (S (S (S (S n))))))) := 1 - v]>
              (a0 :: a1 :: a2 :: a3 :: a4 :: a5 :: a6 :: a7 :: rest))
      with (a0 :: a1 :: a2 :: a3 :: a4 :: a5 :: a6 :: a7 :: <[n := 1 - v]> rest).
    cbn [pack_bits]. rewrite (IH n v Hbits Hn).
    change ((byte_of_bits a0 a1 a2 a3 a4 a5 a6 a7 :: pack_bits rest) !! S (n / 8)%nat)
      with (pack_bits rest !! (n / 8)%nat).
    destruct (pack_bits rest !! (n / 8)%nat); reflexivity.
Qed.

Lemma decode_message_done_len (buf msg : list Z) :
  decode_message buf = Done msg -> 8 + len msg <= len buf.
Proof.
  intros Hdec.
  destruct (decode_message_done _ _ Hdec)
    as (b0 & b1 & b2 & b3 & b4 & b5 & b6 & b7 & rest & -> & Hsize & -> & _).
  rewrite !len_cons. unfold len in *. rewrite length_take. lia.
Qed.

(** ** Flipped bits in the carrier *)

Lemma carried_bits_middle (pre post : list Z) (b : Z) :
  eligible (len pre) = true ->
  carried_bits (pre ++ b :: post) =
    carried_bits pre ++ lsb b :: (lsb <$> eligible_bytes (len pre + 1) post).
Proof.
  intros He. unfold carried_bits.
  rewrite eligible_bytes_app, Z.add_0_l. cbn [eligible_bytes]. rewrite He.
  rewrite fmap_app. reflexivity.
Qed.


Lemma lsb_lxor_1 (b : Z) : lsb (Z.lxor b 1) = 1 - lsb b.
Proof.
  unfold lsb. rewrite <- !Z.bit0_mod, Z.lxor_spec.
  change (Z.testbit 1 0) with true. destruct (Z.testbit b 0); reflexivity.
Qed.

Lemma len_carried_bits (pix : list Z) : len (carried_bits pix) = eligible_count pix.
Proof. unfold len, carried_bits, eligible_count, len. rewrite length_fmap. reflexivity. Qed.

(** The least-significant bit of the eligible byte that follows [pre]
    flipped: bit [eligible_count pre] of the stream is flipped. *)
Lemma decode_flip (pre post : list Z) (b : Z) (msg : list Z) :
  eligible (len pre) = true ->
  decode (pre ++ b :: post) = Done msg ->
  (64 <= eligible_count pre < 64 + 8 * len msg ->
     decode (pre ++ Z.lxor b 1 :: post) = Fatal noHiddenMessage)
  /\ (64 + 8 * len msg <= eligible_count pre ->
     decode (pre ++ Z.lxor b 1 :: post) = Done msg).
Proof.
  intros He. unfold decode. rewrite !decode_pixels_extract. unfold extract.
  rewrite !carried_bits_middle by assumption. rewrite lsb_lxor_1.
  rewrite <- len_carried_bits.
  set (l1 := carried_bits pre).
  set (l2 := lsb <$> eligible_bytes (len pre + 1) post).
  set (v := lsb b). set (bits := l1 ++ v :: l2). intros Hdec.
  assert (Forall is_bit bits) as Hbits.
  { subst bits l1 l2 v. rewrite <- carried_bits_middle by assumption.
    apply carried_bits_are_bits. }
  assert (l1 ++ (1 - v) :: l2 = <[length l1 := 1 - v]> bits) as ->.
  { subst bits. rewrite insert_app_r_alt by lia. rewrite Nat.sub_diag. reflexivity. }
  rewrite (pack_bits_flip bits (length l1) v Hbits)
    by (apply list_lookup_middle; reflexivity).
  pose proof (decode_message_done_len _ _ Hdec) as Hlen.
  assert (Z.of_nat (length l1 / 8) = len l1 / 8) as Hq
    by (unfold len; apply Nat2Z.inj_div).
  destruct (pack_bits bits !! (length l1 / 8)%nat) as [B|] eqn:HB.
  - pose proof (lookup_lt_Some _ _ _ HB) as Hlt.
    assert (is_byte B) as HBb
      by (eapply Forall_lookup_1; [apply extract_bytes_of_bits, Hbits | exact HB]).
    rewrite insert_take_drop by assumption.
    rewrite <- (take_drop_middle _ _ _ HB) in Hdec.
    assert (len (take (length l1 / 8) (pack_bits bits)) = len l1 / 8) as Hs1.
    { unfold len at 1. rewrite length_take_le by lia. exact Hq. }
    destruct (decode_message_flip
                (take (length l1 / 8) (pack_bits bits))
                (drop (S (length l1 / 8)) (pack_bits bits))
                B (7 - Z.of_nat (length l1 mod 8)) msg HBb)
      as [Hin Hout]; [ | exact Hdec | ].
    { pose proof (Nat.mod_upper_bound (length l1) 8). lia. }
    rewrite Hs1 in Hin, Hout.
    split; intros Hpos; [apply Hin | apply Hout]; zdm.
  - apply lookup_ge_None_1 in HB. split; intros Hpos; [|exact Hdec].
    exfalso. unfold len in Hlen at 2. zdm.
Qed.

(** ** [encode], by cases on its size check *)

Lemma encode_cases (srcPix msg : list Z) :
  Forall is_byte srcPix ->
  (eligible_count srcPix < 8 + len msg
   /\ encode srcPix msg = (Fatal messageTooLarge, encode_init srcPix msg))
  \/ (8 + len msg <= eligible_count srcPix
      /\ exists r',
           encode srcPix msg =
             (Done (embed_bits 0 srcPix (bits_of (frame msg))),
              {| destPix := embed_bits 0 srcPix (bits_of (frame msg)); r := r' |})).
Proof.
  intros Hpix. rewrite eligible_count_formula.
  destruct (Z.lt_ge_cases (len srcPix) (8 + len msg + len srcPix / 4)) as [Hlt | Hge].
  - left. split; [lia | apply encode_fatal; assumption].
  - right. split; [lia|]. rewrite <- newBitReader_frame.
    apply encode_done; assumption.
Qed.

(** The size check refuses a message exactly when its frame has more
    bytes than the carrier has eligible bytes. *)
Lemma encode_refuses_iff (srcPix msg : list Z) :
  Forall is_byte srcPix ->
  fst (encode srcPix msg) = Fatal messageTooLarge
  <-> eligible_count srcPix < 8 + len msg.
Proof.
  intros Hpix.
  destruct (encode_cases srcPix msg Hpix) as [[Hlt ->] | [Hge [r' ->]]]; cbn [fst].
  - tauto.
  - split; [discriminate | lia].
Qed.

Lemma encoded_done (srcPix msg out : list Z) :
  Forall is_byte srcPix ->
  encoded srcPix msg = Done out ->
  out = embed_bits 0 srcPix (bits_of (frame msg)).
Proof.
  intros Hpix. unfold encoded.
  destruct (encode_cases srcPix msg Hpix) as [[_ ->] | [_ [r' ->]]]; cbn [fst].
  - discriminate.
  - intros [= <-]. reflexivity.
Qed.

Lemma embed_bits_app (pre rest : list Z) : forall (i : Z) (bits : list Z),
  embed_bits i (pre ++ rest) bits =
    embed_bits i pre bits
    ++ embed_bits (i + len pre) rest (drop (length (eligible_bytes i pre)) bits).
Proof.
  induction pre as [|b pre IH]; intros i bits.
  - change (len (@nil Z)) with 0. rewrite Z.add_0_r. reflexivity.
  - rewrite len_cons. replace (i + (len pre + 1)) with (i + 1 + len pre) by lia.
    cbn [app embed_bits eligible_bytes]. destruct (eligible i).
    + destruct bits as [|v bits'].
      * rewrite IH, drop_nil. cbn [app]. rewrite drop_nil. reflexivity.
      * rewrite IH. reflexivity.
    + rewrite IH. reflexivity.
Qed.

(** The byte [embed_bits] puts where the source has [b], after [pre]. *)
Lemma embed_bits_middle (pre post bits : list Z) (b : Z) :
  embed_bits 0 (pre ++ b :: post) bits !! length pre =
    Some (if eligible (len pre) then
            match bits !! Z.to_nat (eligible_count pre) with
            | Some v => set_lsb b v
            | None => b
            end
          else b).
Proof.
  rewrite embed_bits_app, Z.add_0_l.
  rewrite lookup_app_r by (rewrite length_embed_bits; lia).
  rewrite length_embed_bits, Nat.sub_diag.
  unfold eligible_count.
  replace (Z.to_nat (len (eligible_bytes 0 pre)))
    with (length (eligible_bytes 0 pre) + 0)%nat by (unfold len; lia).
  cbn [embed_bits]. destruct (eligible (len pre)); [|reflexivity].
  rewrite <- lookup_drop.
  destruct (drop (length (eligible_bytes 0 pre)) bits); reflexivity.
Qed.

(** ** [decode] never panics where [int] has 64 bits *)

Lemma Read_uint32_range (l : list Z) (x : Z) :
  Forall is_byte l ->
  0 <= x < 2 ^ 32 ->
  0 <= fst (Read_uint32 l x) < 2 ^ 32 /\ Forall is_byte (snd (Read_uint32 l x)).
Proof.
  intros Hl Hx. destruct l as [|b0 [|b1 [|b2 [|b3 rest]]]];
    cbn [Read_uint32 fst snd]; try (split; [assumption | constructor]).
  repeat (apply Forall_cons in Hl; destruct Hl as [? Hl]).
  split; [|assumption]. rewrite Uint32_value by assumption.
  unfold big_endian_value, is_byte in *. lia.
Qed.

Lemma decode_header_range (buf : list Z) (size hash : Z) (msg : list Z) :
  Forall is_byte buf ->
  decode_header buf = (size, hash, msg) ->
  0 <= size < 2 ^ 32 /\ 0 <= hash < 2 ^ 32.
Proof.
  intros Hbuf. unfold decode_header.
  destruct (Read_uint32_range buf 0 Hbuf ltac:(lia)) as [Hs Hrest].
  destruct (Read_uint32 buf 0) as [size' rest]. cbn [fst snd] in *.
  destruct (Read_uint32_range rest 0 Hrest ltac:(lia)) as [Hh _].
  destruct (Read_uint32 rest 0) as [hash' msg']. cbn [fst] in *.
  intros [= <- <- _]. split; assumption.
Qed.

Lemma decode_message_no_panic (buf : list Z) :
  Forall is_byte buf -> decode_message buf <> Panic.
Proof.
  intros Hbuf.
  destruct (decode_header buf) as [[size hash] msg] eqn:Hh.
  destruct (decode_header_range _ _ _ _ Hbuf Hh) as [Hs _].
  rewrite (decode_message_cases _ _ _ _ Hh) by lia.
  destruct (len msg <? size); [discriminate|].
  destruct (Checksum (take (Z.to_nat size) msg) =? hash); discriminate.
Qed.

(** With fewer than 8 bytes gathered, [decode] reports no message. *)
Lemma decode_message_short (buf : list Z) :
  Forall is_byte buf -> len buf < 8 ->
  decode_message buf = Fatal noHiddenMessage.
Proof.
  intros Hbuf Hlen. destruct (decode_header_short buf Hlen) as [size Hh].
  destruct (decode_header_range _ _ _ _ Hbuf Hh) as [Hs _].
  rewrite (decode_message_cases _ _ _ _ Hh) by lia.
  change (len (@nil Z)) with 0. rewrite take_nil.
  destruct (0 <? size); reflexivity.
Qed.


(** ** [decode] where [int] has 32 bits *)

(** The two builds differ in one case: a declared size of [2 ^ 31] or
    more with fewer bytes left.  With 64 bits this is "no hidden
    message"; with 32 bits [int(size)] is negative, the guard lets it
    pass and [msg[:size]] panics. *)
Lemma decode_message_on_width (bits : Z) (buf : list Z) (size hash : Z) (msg : list Z) :
  bits = 32 \/ bits = 64 ->
  Forall is_byte buf ->
  decode_header buf = (size, hash, msg) ->
  decode_message_on bits buf =
    if (bits =? 32) && (2 ^ 31 <=? size) && (len msg <? size) then Panic
    else decode_message buf.
Proof.
  intros Hbits Hbuf Hh.
  destruct (decode_header_range _ _ _ _ Hbuf Hh) as [Hs _].
  rewrite (decode_message_cases _ _ _ _ Hh) by lia.
  rewrite (decode_message_on_cases bits _ _ _ _ ltac:(lia) Hh) by lia.
  pose proof (len_nonneg msg) as Hn.
  destruct Hbits as [-> | ->].
  - change (32 =? 32) with true. cbn [andb].
    rewrite int_of_uint32_32 by assumption.
    destruct (len msg <? size) eqn:Hlt; [|rewrite andb_false_r; reflexivity].
    destruct (2 ^ 31 <=? size) eqn:Hbig; cbn [andb].
    + assert ((len msg <? size - 2 ^ 32) = false) as -> by (apply Z.ltb_ge; lia).
      reflexivity.
    + rewrite Hlt. reflexivity.
  - change (64 =? 32) with false. cbn [andb].
    destruct (len msg <? size) eqn:Hlt; [|reflexivity].
    rewrite int_of_uint32_64 by lia. rewrite Hlt. reflexivity.
Qed.

(** When [decode] panics. *)
Lemma decode_message_on_panic (bits : Z) (buf : list Z) (size hash : Z) (msg : list Z) :
  bits = 32 \/ bits = 64 ->
  Forall is_byte buf ->
  decode_header buf = (size, hash, msg) ->
  decode_message_on bits buf = Panic
  <-> bits = 32 /\ 2 ^ 31 <= size /\ len msg < size.
Proof.
  intros Hbits Hbuf Hh.
  rewrite (decode_message_on_width bits _ _ _ _ Hbits Hbuf Hh).
  pose proof (decode_message_no_panic buf Hbuf) as Hnp.
  destruct (Z.eqb_spec bits 32) as [Hb | Hb]; cbn [andb].
  - destruct (Z.leb_spec (2 ^ 31) size) as [Hbig | Hbig]; cbn [andb].
    + destruct (Z.ltb_spec (len msg) size) as [Hlt | Hlt].
      * split; [auto | reflexivity].
      * split; [tauto | lia].
    + split; [tauto | lia].
  - split; [tauto | intros [? _]; contradiction].
Qed.


(** A message is found with 32 bits exactly when it is with 64. *)
Lemma decode_message_on_done (bits : Z) (buf out : list Z) :
  bits = 32 \/ bits = 64 ->
  Forall is_byte buf ->
  decode_message_on bits buf = Done out <-> decode_message buf = Done out.
Proof.
  intros Hbits Hbuf.
  destruct (decode_header buf) as [[size hash] msg] eqn:Hh.
  destruct (decode_header_range _ _ _ _ Hbuf Hh) as [Hs _].
  rewrite (decode_message_on_width bits _ _ _ _ Hbits Hbuf Hh).
  destruct ((bits =? 32) && (2 ^ 31 <=? size) && (len msg <? size)) eqn:Hc;
    [|reflexivity].
  apply andb_true_iff in Hc. destruct Hc as [_ Hlt].
  rewrite (decode_message_cases _ _ _ _ Hh) by lia. rewrite Hlt.
  split; discriminate.
Qed.



(** The header of a payload below [2 ^ 32] bytes, byte by byte. *)
Lemma frame_layout_words (msg : list Z) :
  len msg < 2 ^ 32 ->
  exists s0 s1 s2 s3 h0 h1 h2 h3,
    frame msg = s0 :: s1 :: s2 :: s3 :: h0 :: h1 :: h2 :: h3 :: msg
    /\ Forall is_byte [s0; s1; s2; s3; h0; h1; h2; h3]
    /\ big_endian_value s0 s1 s2 s3 = len msg
    /\ big_endian_value h0 h1 h2 h3 = Checksum msg.
Proof.
  intros Hlen. pose proof (len_nonneg msg) as Hn.
  rewrite frame_words. unfold big_endian4. cbn [app].
  do 8 eexists. split; [reflexivity|].
  split; [|split; apply big_endian_value_4; [lia | apply Checksum_range]].
  exact (Forall_app_2 _ _ _ (big_endian4_bytes (len msg))
           (big_endian4_bytes (Checksum msg))).
Qed.

(** The same for [decode] from the pixels. *)
Lemma decode_pixels_bytes (pix : list Z) : Forall is_byte (decode_pixels pix).
Proof. rewrite decode_pixels_extract. apply extract_bytes. Qed.

Lemma decode_on_width (bits : Z) (pix : list Z) (size hash : Z) (msg : list Z) :
  bits = 32 \/ bits = 64 ->
  decode_header (decode_pixels pix) = (size, hash, msg) ->
  decode_on bits pix =
    if (bits =? 32) && (2 ^ 31 <=? size) && (len msg <? size) then Panic
    else decode pix.
Proof.
  intros Hbits Hh.
  exact (decode_message_on_width bits _ _ _ _ Hbits (decode_pixels_bytes pix) Hh).
Qed.

Lemma decode_on_panic (bits : Z) (pix : list Z) (size hash : Z) (msg : list Z) :
  bits = 32 \/ bits = 64 ->
  decode_header (decode_pixels pix) = (size, hash, msg) ->
  decode_on bits pix = Panic
  <-> bits = 32 /\ 2 ^ 31 <= size /\ len msg < size.
Proof.
  intros Hbits Hh.
  exact (decode_message_on_panic bits _ _ _ _ Hbits (decode_pixels_bytes pix) Hh).
Qed.

Lemma decode_on_done (bits : Z) (pix out : list Z) :
  bits = 32 \/ bits = 64 ->
  decode_on bits pix = Done out <-> decode pix = Done out.
Proof.
  intros Hbits.
  exact (decode_message_on_done bits _ out Hbits (decode_pixels_bytes pix)).
Qed.







(** ** The properties of the codec *)

(** Closed goals on bytes and numbers. *)
Ltac bytes_tac :=
  repeat first
    [ apply replicate_bytes; unfold is_byte; lia
    | apply Forall_app_2
    | apply Forall_nil_2
    | apply Forall_cons_2; [unfold is_byte; lia|] ].

(** C1, as amended: for every payload of fewer than [2 ^ 32] bytes and
    every channel buffer whose number of eligible bytes [E] satisfies
    [8 * (8 + length payload) <= E], [encode] succeeds and [decode] of
    its output yields exactly the payload. *)
Theorem roundtrip_below_4GiB (pix msg : list Z) :
  Forall is_byte pix -> Forall is_byte msg ->
  len msg < 2 ^ 32 ->
  8 * (8 + len msg) <= eligible_count pix ->
  exists out, encoded pix msg = Done out /\ decode out = Done msg.
Proof. apply roundtrip_u32. Qed.

Lemma roundtrip_below_4GiB_witness :
  (Forall is_byte small_carrier /\ Forall is_byte hello)
  /\ exists out, encoded small_carrier hello = Done out /\ decode out = Done hello.
Proof.
  assert (Forall is_byte small_carrier) as Hc
    by (apply replicate_bytes; unfold is_byte; lia).
  assert (Forall is_byte hello) as Hh by (unfold hello; bytes_tac).
  split; [split; assumption|].
  apply (roundtrip_below_4GiB small_carrier hello Hc Hh).
  - vm_compute. reflexivity.
  - vm_compute. discriminate.
Defined.

(** C1, as stated, fails for a payload of [2 ^ 32] bytes: the carrier has
    the eligible bytes the capacity relation asks for, [encode] succeeds,
    and [decode] of its output reports that there is no hidden message,
    because the size field holds [2 ^ 32 mod 2 ^ 32 = 0]. *)
Lemma roundtrip_fails_at_4GiB :
  Forall is_byte carrier_4GiB /\ Forall is_byte payload_4GiB
  /\ 8 * (8 + len payload_4GiB) <= eligible_count carrier_4GiB
  /\ (exists out,
        encoded carrier_4GiB payload_4GiB = Done out
        /\ decode out = Fatal noHiddenMessage)
  /\ ~ (exists out,
          encoded carrier_4GiB payload_4GiB = Done out
          /\ decode out = Done payload_4GiB).
Proof.
  split; [apply replicate_bytes; unfold is_byte; lia|].
  split; [apply replicate_bytes; unfold is_byte; lia|].
  split; [apply capacity_4GiB|].
  split; [apply decode_4GiB|].
  destruct decode_4GiB as (out & Henc & Hdec).
  intros (out' & Henc' & Hdec').
  rewrite Henc in Henc'. injection Henc' as <-.
  rewrite Hdec in Hdec'. discriminate.
Qed.

(** C2: the size check of [encode] compares the number of bytes of the
    frame, not of its bits, with the number of eligible bytes.  On the
    carrier of 40000 bytes ([E = 30000]) the payload of 3743 bytes, whose
    frame has 30008 bits, is not refused: [encode] returns an image, from
    which [decode] finds no message. *)
Theorem capacity_check_counts_bytes :
  eligible_count carrier_40000 = 30000
  /\ 8 * (8 + len payload_3743) = 30008
  /\ exists out,
       encoded carrier_40000 payload_3743 = Done out
       /\ decode out = Fatal noHiddenMessage.
Proof.
  split; [vm_compute; reflexivity|].
  split; [vm_compute; reflexivity|].
  assert (Forall is_byte carrier_40000) as Hc
    by (apply replicate_bytes; unfold is_byte; lia).
  destruct (encode_cases carrier_40000 payload_3743 Hc)
    as [[Hlt _] | [_ [r' Henc]]].
  - exfalso. vm_compute in Hlt. discriminate.
  - eexists. split; [unfold encoded; rewrite Henc; reflexivity|].
    unfold decode. rewrite decode_pixels_extract.
    vm_compute. reflexivity.
Qed.

(** C3: [encode] either stops at its size check, before the loop: no
    byte of the destination has been written (it is the zeroed image it
    was created as) and the reader is untouched; or it runs the whole
    loop: the destination has the length of the source and every one of
    its bytes is the one the mutation rule gives.  It never panics. *)
Theorem encode_all_or_nothing (pix msg : list Z) :
  Forall is_byte pix ->
  (forall m, fst (encode pix msg) = Fatal m ->
     m = messageTooLarge
     /\ snd (encode pix msg) = encode_init pix msg
     /\ destPix (snd (encode pix msg)) = replicate (length pix) 0)
  /\ (forall out, fst (encode pix msg) = Done out ->
        destPix (snd (encode pix msg)) = out
        /\ length out = length pix
        /\ out = embed_bits 0 pix (bits_of (frame msg)))
  /\ fst (encode pix msg) <> Panic.
Proof.
  intros Hpix.
  destruct (encode_cases pix msg Hpix) as [[_ ->] | [_ [r' ->]]]; cbn [fst snd].
  - split; [|split]; [|discriminate..].
    intros m [= <-]. repeat split.
  - split; [|split]; [discriminate| |discriminate].
    intros out [= <-]. cbn [destPix].
    repeat split. apply length_embed_bits.
Qed.

Lemma encode_all_or_nothing_witness :
  Forall is_byte [1; 2; 3; 4]
  /\ snd (encode [1; 2; 3; 4] hello) = encode_init [1; 2; 3; 4] hello.
Proof.
  assert (Forall is_byte [1; 2; 3; 4]) as Hb by bytes_tac.
  split; [assumption|].
  apply (proj1 (encode_all_or_nothing [1; 2; 3; 4] hello Hb) messageTooLarge).
  vm_compute. reflexivity.
Defined.

(** C4, as amended: for every payload of fewer than [2 ^ 32] bytes, the
    data of the bit reader, which is what [encode] embeds, is 4 bytes
    whose big-endian value is the length of the payload, then 4 bytes
    whose big-endian value is its Adler-32 checksum, then the payload;
    [decode] reads the same layout back: its header reads give that
    length and that checksum, and it accepts the payload with the same
    checksum function, whether [int] has 32 or 64 bits. *)
Theorem frame_layout_below_4GiB (msg : list Z) :
  len msg < 2 ^ 32 ->
  exists s0 s1 s2 s3 h0 h1 h2 h3,
    data (newBitReader msg) = s0 :: s1 :: s2 :: s3 :: h0 :: h1 :: h2 :: h3 :: msg
    /\ Forall is_byte [s0; s1; s2; s3; h0; h1; h2; h3]
    /\ big_endian_value s0 s1 s2 s3 = len msg
    /\ big_endian_value h0 h1 h2 h3 = Checksum msg
    /\ forall tail,
         decode_header (data (newBitReader msg) ++ tail)
         = (len msg, Checksum msg, msg ++ tail)
         /\ decode_message_on 32 (data (newBitReader msg) ++ tail) = Done msg
         /\ decode_message_on 64 (data (newBitReader msg) ++ tail) = Done msg.
Proof.
  intros Hlen. pose proof (len_nonneg msg) as Hn.
  destruct (frame_layout_words msg Hlen)
    as (s0 & s1 & s2 & s3 & h0 & h1 & h2 & h3 & Hf & Hb & Hs & Hh).
  exists s0, s1, s2, s3, h0, h1, h2, h3.
  rewrite newBitReader_frame.
  split; [exact Hf|]. split; [exact Hb|]. split; [exact Hs|]. split; [exact Hh|].
  intros tail. split; [|split; apply decode_message_on_frame; lia].
  rewrite frame_words, <- !app_assoc.
  apply decode_header_words; [lia | apply Checksum_range].
Qed.

Lemma frame_layout_below_4GiB_witness :
  len hello < 2 ^ 32
  /\ data (newBitReader hello)
     = [0; 0; 0; 5; 4; 76; 1; 117; 72; 69; 76; 76; 79]
  /\ decode_message_on 32 (data (newBitReader hello) ++ [1; 2; 3]) = Done hello.
Proof.
  assert (len hello < 2 ^ 32) as Hlen by (vm_compute; reflexivity).
  split; [assumption|]. split; [vm_compute; reflexivity|].
  destruct (frame_layout_below_4GiB hello Hlen)
    as (s0 & s1 & s2 & s3 & h0 & h1 & h2 & h3 & _ & _ & _ & _ & Hdec).
  exact (proj1 (proj2 (Hdec [1; 2; 3]))).
Defined.

(** C4, as stated, fails for a payload of [2 ^ 32] bytes: the 4 bytes of
    the size in the data of the reader are all 0, which is the number 0,
    not the length of the payload, and 0 is the size that the header
    reads of [decode] give. *)
Lemma frame_size_field_wraps :
  len payload_4GiB = 2 ^ 32
  /\ take 4 (data (newBitReader payload_4GiB)) = [0; 0; 0; 0]
  /\ big_endian_value 0 0 0 0 <> len payload_4GiB
  /\ fst (fst (decode_header (data (newBitReader payload_4GiB)))) = 0.
Proof.
  split; [apply len_payload_4GiB|].
  rewrite newBitReader_data, len_payload_4GiB.
  change (uint32 (2 ^ 32)) with 0.
  split; [reflexivity|]. split; [vm_compute; discriminate|].
  rewrite decode_header_words; [reflexivity | lia | apply Checksum_range].
Qed.

(** C5: in a carrier from which [decode] recovers a message, flipping
    the least-significant bit of an eligible byte that carries a bit of
    the declared payload (the eligible bytes number 64 to
    [64 + 8 * size - 1]) makes [decode] report that there is no hidden
    message; flipping one that carries a later bit of the stream leaves
    the result unchanged. *)
Theorem single_bit_flip (pre post : list Z) (b : Z) (msg : list Z) :
  eligible (len pre) = true ->
  decode (pre ++ b :: post) = Done msg ->
  (64 <= eligible_count pre < 64 + 8 * len msg ->
     decode (pre ++ Z.lxor b 1 :: post) = Fatal noHiddenMessage)
  /\ (64 + 8 * len msg <= eligible_count pre ->
     decode (pre ++ Z.lxor b 1 :: post) = Done msg).
Proof. apply decode_flip. Qed.

Lemma single_bit_flip_witness :
  decode (take 100 hello_carrier ++ Z.lxor 200 1 :: drop 101 hello_carrier)
  = Fatal noHiddenMessage
  /\ decode (take 138 hello_carrier ++ Z.lxor 200 1 :: drop 139 hello_carrier)
     = Done hello.
Proof.
  assert (64 <= eligible_count (take 100 hello_carrier) < 64 + 8 * len hello)
    as Hin by (vm_compute; split; [discriminate | reflexivity]).
  assert (64 + 8 * len hello <= eligible_count (take 138 hello_carrier))
    as Hout by (vm_compute; discriminate).
  assert (eligible (len (take 100 hello_carrier)) = true) as He1
    by (vm_compute; reflexivity).
  assert (decode (take 100 hello_carrier ++ 200 :: drop 101 hello_carrier)
          = Done hello) as Hd1 by (vm_compute; reflexivity).
  assert (eligible (len (take 138 hello_carrier)) = true) as He2
    by (vm_compute; reflexivity).
  assert (decode (take 138 hello_carrier ++ 200 :: drop 139 hello_carrier)
          = Done hello) as Hd2 by (vm_compute; reflexivity).
  split.
  - exact (proj1 (single_bit_flip (take 100 hello_carrier) (drop 101 hello_carrier)
                    200 hello He1 Hd1) Hin).
  - exact (proj2 (single_bit_flip (take 138 hello_carrier) (drop 139 hello_carrier)
                    200 hello He2 Hd2) Hout).
Defined.



(** C7: when [encode] succeeds, an eligible byte [b] that gets the bit
    [v] of the frame becomes [(b land 254) lor v]: its least-significant
    bit is [v] and its seven higher bits are those of [b]; an eligible
    byte that comes after all the bits of the frame were handed out is
    copied as it is. *)
Theorem embed_rule (pre post : list Z) (b : Z) (msg out : list Z) :
  Forall is_byte (pre ++ b :: post) ->
  encoded (pre ++ b :: post) msg = Done out ->
  (len pre + 1) mod 4 <> 0 ->
  (forall v,
     bits_of (data (newBitReader msg)) !! Z.to_nat (eligible_count pre) = Some v ->
     out !! length pre = Some (Z.lor (Z.land b 254) v)
     /\ Z.lor (Z.land b 254) v mod 2 = v
     /\ Z.shiftr (Z.lor (Z.land b 254) v) 1 = Z.shiftr b 1)
  /\ (8 * len (data (newBitReader msg)) <= eligible_count pre ->
      out !! length pre = Some b).
Proof.
  intros Hpix Henc Hmod.
  assert (eligible (len pre) = true) as He.
  { unfold eligible. apply Z.eqb_neq in Hmod. rewrite Hmod. reflexivity. }
  assert (is_byte b) as Hb.
  { apply Forall_app in Hpix. destruct Hpix as [_ Hpix].
    apply Forall_cons in Hpix. tauto. }
  rewrite newBitReader_frame.
  rewrite (encoded_done _ _ _ Hpix Henc), embed_bits_middle, He.
  split.
  - intros v Hv. rewrite Hv.
    assert (is_bit v) as Hbit
      by (eapply Forall_lookup_1; [apply bits_of_are_bits | exact Hv]).
    split; [reflexivity|]. split.
    + apply (set_lsb_lsb b v Hb Hbit).
    + apply (set_lsb_high b v Hb Hbit).
  - intros Hlen. rewrite lookup_ge_None_2; [reflexivity|].
    rewrite length_bits_of. unfold len in Hlen.
    pose proof (len_nonneg (eligible_bytes 0 pre)). unfold eligible_count in *. lia.
Qed.

Lemma embed_rule_witness :
  hello_carrier !! 100%nat = Some (Z.lor (Z.land 200 254) 0)
  /\ hello_carrier !! 138%nat = Some 200.
Proof.
  assert (Forall is_byte (replicate 100 200 ++ 200 :: replicate 38 200))
    as Hb1 by bytes_tac.
  assert (Forall is_byte (replicate 138 200 ++ 200 :: []))
    as Hb2 by bytes_tac.
  assert ((len (replicate 100 200) + 1) mod 4 <> 0) as Hm1
    by (vm_compute; discriminate).
  assert ((len (replicate 138 200) + 1) mod 4 <> 0) as Hm2
    by (vm_compute; discriminate).
  assert (bits_of (data (newBitReader hello))
            !! Z.to_nat (eligible_count (replicate 100 200)) = Some 0) as Hv
    by (vm_compute; reflexivity).
  assert (8 * len (data (newBitReader hello))
          <= eligible_count (replicate 138 200)) as Hl
    by (vm_compute; discriminate).
  assert (encoded (replicate 100 200 ++ 200 :: replicate 38 200) hello
          = Done hello_carrier) as He1 by (vm_compute; reflexivity).
  assert (encoded (replicate 138 200 ++ 200 :: []) hello
          = Done hello_carrier) as He2 by (vm_compute; reflexivity).
  split.
  - exact (proj1 (proj1 (embed_rule (replicate 100 200) (replicate 38 200)
                           200 hello hello_carrier Hb1 He1 Hm1) 0 Hv)).
  - exact (proj2 (embed_rule (replicate 138 200) []
                    200 hello hello_carrier Hb2 He2 Hm2) Hl).
Defined.




(** C9: the first loop of [decode] always gives a buffer: the
    least-significant bits of the eligible bytes, in buffer order, packed
    8 bits MSB-first per byte; it has [E / 8] bytes, rounded down. *)
Theorem decode_pixels_total (pix : list Z) :
  decode_pixels pix = pack_bits (lsb <$> eligible_bytes 0 pix)
  /\ len (decode_pixels pix) = eligible_count pix / 8.
Proof.
  split; [apply decode_pixels_extract|].
  rewrite decode_pixels_extract. unfold extract.
  rewrite len_pack_bits, len_carried_bits. reflexivity.
Qed.




(** ** More on [encode] and [decode] *)

(** *** What a successful [decode] means *)

Lemma big_endian4_value (b0 b1 b2 b3 : Z) :
  is_byte b0 -> is_byte b1 -> is_byte b2 -> is_byte b3 ->
  big_endian4 (big_endian_value b0 b1 b2 b3) = [b0; b1; b2; b3].
Proof.
  unfold is_byte, big_endian4, big_endian_value. intros H0 H1 H2 H3.
  change (2 ^ 24) with 16777216. change (2 ^ 16) with 65536.
  change (2 ^ 8) with 256.
  set (v := b0 * 16777216 + b1 * 65536 + b2 * 256 + b3).
  assert ((v / 16777216) mod 256 = b0) as -> by (subst v; zdm).
  assert ((v / 65536) mod 256 = b1) as -> by (subst v; zdm).
  assert ((v / 256) mod 256 = b2) as -> by (subst v; zdm).
  assert (v mod 256 = b3) as -> by (subst v; zdm).
  reflexivity.
Qed.

(** The gathered bytes give a message exactly when they start with its
    frame. *)
Lemma decode_message_iff_frame (buf msg : list Z) :
  Forall is_byte buf ->
  decode_message buf = Done msg
  <-> len msg < 2 ^ 32 /\ exists tail, buf = frame msg ++ tail.
Proof.
  intros Hbuf. split.
  - intros Hdec. split; [exact (decode_message_length _ _ Hbuf Hdec)|].
    destruct (decode_message_done _ _ Hdec)
      as (b0 & b1 & b2 & b3 & b4 & b5 & b6 & b7 & rest & -> & Hsize & Hmsg & Hsum).
    repeat (apply Forall_cons in Hbuf; destruct Hbuf as [? Hbuf]).
    rewrite !Uint32_value in * by assumption.
    exists (drop (Z.to_nat (big_endian_value b0 b1 b2 b3)) rest).
    rewrite frame_words.
    assert (len msg = big_endian_value b0 b1 b2 b3) as ->.
    { rewrite Hmsg. unfold len in *. rewrite length_take. lia. }
    rewrite Hsum, !big_endian4_value by assumption.
    rewrite Hmsg, <- !app_assoc, take_drop. reflexivity.
  - intros [Hlen [tail ->]]. apply decode_message_frame. assumption.
Qed.

(** A recovered message respects the capacity relation. *)
Lemma decode_done_capacity (pix msg : list Z) :
  decode pix = Done msg ->
  8 * (8 + len msg) <= eligible_count pix /\ len msg < 2 ^ 32.
Proof.
  unfold decode. rewrite decode_pixels_extract. intros Hdec. split.
  - pose proof (decode_message_done_len _ _ Hdec) as Hlen.
    unfold extract in Hlen. rewrite len_pack_bits, len_carried_bits in Hlen.
    pose proof (len_nonneg msg). zdm.
  - exact (decode_message_length _ _ (extract_bytes pix) Hdec).
Qed.

Lemma decode_iff_frame (pix msg : list Z) :
  decode pix = Done msg
  <-> len msg < 2 ^ 32 /\ exists tail, decode_pixels pix = frame msg ++ tail.
Proof.
  unfold decode. apply decode_message_iff_frame.
  rewrite decode_pixels_extract. apply extract_bytes.
Qed.

(** *** A frame that does not fit *)

Lemma pack_bits_take (data : list Z) : forall (n : nat),
  Forall is_byte data ->
  pack_bits (take n (bits_of data)) = take (n / 8) data.
Proof.
  induction data as [|d rest IH]; intros n Hdata.
  - cbn [bits_of]. rewrite !take_nil. reflexivity.
  - apply Forall_cons in Hdata. destruct Hdata as [Hd Hrest].
    cbn [bits_of bits_of_byte app].
    do 8 (destruct n as [|n]; [reflexivity|]).
    destruct (nat_div_mod_8 n) as [-> _].
    cbn [take pack_bits]. rewrite byte_of_bits_of_byte by assumption.
    rewrite IH by assumption. reflexivity.
Qed.

(** With more bits than eligible bytes, the buffer carries the first bits. *)
Lemma carried_bits_embed_full (pix bits : list Z) :
  Forall is_byte pix -> Forall is_bit bits ->
  eligible_count pix <= len bits ->
  carried_bits (embed_bits 0 pix bits) = take (Z.to_nat (eligible_count pix)) bits.
Proof.
  intros Hpix Hbits Hle. unfold carried_bits.
  rewrite carried_bits_embed by assumption.
  rewrite drop_ge, app_nil_r.
  - unfold eligible_count, len. rewrite Nat2Z.id. reflexivity.
  - rewrite length_fmap. unfold eligible_count, len in Hle. lia.
Qed.

Lemma decode_message_truncated (msg : list Z) (m : nat) :
  Forall is_byte msg -> len msg < 2 ^ 32 ->
  Z.of_nat m < 8 + len msg ->
  decode_message (take m (frame msg)) = Fatal noHiddenMessage.
Proof.
  intros Hmsg Hlen Hm. pose proof (len_nonneg msg) as Hn.
  destruct (Z.lt_ge_cases (Z.of_nat m) 8) as [Hshort | Hlong].
  - apply decode_message_short.
    + apply Forall_take, frame_bytes. assumption.
    + unfold len. rewrite length_take. lia.
  - rewrite frame_words, app_assoc.
    rewrite take_app_ge by (cbn [length big_endian4 app]; lia).
    rewrite <- app_assoc.
    rewrite (decode_message_cases _ (len msg) (Checksum msg)
               (take (m - 8) msg));
      [| apply decode_header_words; [lia | apply Checksum_range] | lia | lia].
    assert ((len (take (m - 8) msg) <? len msg) = true) as ->; [|reflexivity].
    apply Z.ltb_lt. unfold len in *. rewrite length_take. lia.
Qed.

(** A message that passes the size check of [encode] without fitting is
    embedded in part, and [decode] finds no message in the result. *)
Lemma encode_truncates (pix msg : list Z) :
  Forall is_byte pix -> Forall is_byte msg ->
  len msg < 2 ^ 32 ->
  8 + len msg <= eligible_count pix ->
  eligible_count pix < 8 * (8 + len msg) ->
  exists out,
    encoded pix msg = Done out /\ decode out = Fatal noHiddenMessage.
Proof.
  intros Hpix Hmsg Hlen Hpass Hbig.
  destruct (encode_cases pix msg Hpix) as [[Hlt _] | [_ [r' Henc]]]; [lia|].
  eexists. split; [unfold encoded; rewrite Henc; reflexivity|].
  unfold decode. rewrite decode_pixels_extract. unfold extract.
  rewrite carried_bits_embed_full;
    [| assumption | apply bits_of_are_bits
     | rewrite len_bits_of, frame_words, !len_app;
       unfold big_endian4; rewrite !len_cons; change (len (@nil Z)) with 0; lia ].
  rewrite pack_bits_take by (apply frame_bytes; assumption).
  apply decode_message_truncated; try assumption.
  pose proof (len_nonneg (eligible_bytes 0 pix)) as HE.
  fold (eligible_count pix) in HE.
  rewrite Nat2Z.inj_div, Z2Nat.id by lia. change (Z.of_nat 8) with 8. zdm.
Qed.

(** *** What [encode] changes *)

Lemma set_lsb_near (b v : Z) :
  is_byte b -> is_bit v -> Z.abs (set_lsb b v - b) <= 1.
Proof.
  intros Hb Hv. pose (P := fun v b => Z.abs (set_lsb b v - b) <=? 1).
  apply Z.leb_le. change (P v b = true).
  destruct Hv as [-> | ->]; apply byte_cases; try assumption;
    vm_compute; reflexivity.
Qed.

Lemma set_lsb_twice (b v : Z) :
  is_byte b -> is_bit v -> set_lsb (set_lsb b v) v = set_lsb b v.
Proof.
  intros Hb Hv. pose (P := fun v b => set_lsb (set_lsb b v) v =? set_lsb b v).
  apply Z.eqb_eq. change (P v b = true).
  destruct Hv as [-> | ->]; apply byte_cases; try assumption;
    vm_compute; reflexivity.
Qed.

Lemma set_lsb_same (b : Z) : is_byte b -> set_lsb b (lsb b) = b.
Proof.
  intros Hb. pose (P := fun b => set_lsb b (lsb b) =? b).
  apply Z.eqb_eq. change (P b = true).
  apply byte_cases; try assumption. vm_compute. reflexivity.
Qed.

(** Byte by byte, the embedded buffer is a byte buffer that differs from
    the source in the least-significant bit at most. *)
Lemma embed_bits_near (pix : list Z) : forall (i : Z) (bits : list Z),
  Forall is_byte pix -> Forall is_bit bits ->
  Forall2 (fun a b => is_byte a /\ Z.shiftr a 1 = Z.shiftr b 1 /\ Z.abs (a - b) <= 1)
    (embed_bits i pix bits) pix.
Proof.
  induction pix as [|b rest IH]; intros i bits Hpix Hbits; [constructor|].
  apply Forall_cons in Hpix. destruct Hpix as [Hb Hrest].
  assert (is_byte b /\ Z.shiftr b 1 = Z.shiftr b 1 /\ Z.abs (b - b) <= 1) as Hsame.
  { repeat split; try apply Hb. lia. }
  cbn [embed_bits]. destruct (eligible i); [destruct bits as [|v bits']|].
  - constructor; [exact Hsame | apply IH; assumption].
  - apply Forall_cons in Hbits. destruct Hbits as [Hv Hbits'].
    constructor; [|apply IH; assumption].
    split; [apply set_lsb_is_byte; assumption|].
    split; [apply set_lsb_high; assumption | apply set_lsb_near; assumption].
  - constructor; [exact Hsame | apply IH; assumption].
Qed.

Lemma embed_bits_bytes (pix bits : list Z) (i : Z) :
  Forall is_byte pix -> Forall is_bit bits ->
  Forall is_byte (embed_bits i pix bits).
Proof.
  intros Hpix Hbits.
  eapply Forall2_Forall_l; [apply (embed_bits_near pix i bits Hpix Hbits)|].
  apply Forall_forall. intros b _ a. tauto.
Qed.

Lemma eligible_count_length (pix pix' : list Z) :
  length pix = length pix' -> eligible_count pix = eligible_count pix'.
Proof.
  intros Hlen. rewrite !eligible_count_formula. unfold len. rewrite Hlen.
  reflexivity.
Qed.

Lemma encoded_bytes (pix msg out : list Z) :
  Forall is_byte pix -> encoded pix msg = Done out ->
  Forall is_byte out /\ length out = length pix.
Proof.
  intros Hpix Henc. rewrite (encoded_done _ _ _ Hpix Henc).
  split; [apply embed_bits_bytes; [assumption | apply bits_of_are_bits]
         | apply length_embed_bits].
Qed.

Lemma embed_bits_twice (pix : list Z) : forall (i : Z) (bits : list Z),
  Forall is_byte pix -> Forall is_bit bits ->
  embed_bits i (embed_bits i pix bits) bits = embed_bits i pix bits.
Proof.
  induction pix as [|b rest IH]; intros i bits Hpix Hbits; [reflexivity|].
  apply Forall_cons in Hpix. destruct Hpix as [Hb Hrest].
  cbn [embed_bits]. destruct (eligible i) eqn:He; [destruct bits as [|v bits']|].
  - cbn [embed_bits]. rewrite He, !embed_bits_nil. reflexivity.
  - apply Forall_cons in Hbits. destruct Hbits as [Hv Hbits'].
    cbn [embed_bits]. rewrite He, set_lsb_twice, IH by assumption. reflexivity.
  - cbn [embed_bits]. rewrite He, IH by assumption. reflexivity.
Qed.

(** Embedding the bits a buffer already carries changes nothing. *)
Lemma embed_bits_carried (pix : list Z) : forall (i : Z) (bits tail : list Z),
  Forall is_byte pix ->
  lsb <$> eligible_bytes i pix = bits ++ tail ->
  embed_bits i pix bits = pix.
Proof.
  induction pix as [|b rest IH]; intros i bits tail Hpix Hc; [reflexivity|].
  apply Forall_cons in Hpix. destruct Hpix as [Hb Hrest].
  cbn [embed_bits eligible_bytes] in *. destruct (eligible i).
  - destruct bits as [|v bits'].
    + rewrite embed_bits_nil. reflexivity.
    + cbn [fmap list_fmap app] in Hc. injection Hc as <- Hc.
      rewrite set_lsb_same, (IH _ _ tail) by assumption. reflexivity.
  - rewrite (IH _ _ tail) by assumption. reflexivity.
Qed.

Lemma bit_of_byte_of_bits (v0 v1 v2 v3 v4 v5 v6 v7 : Z) :
  is_bit v0 -> is_bit v1 -> is_bit v2 -> is_bit v3 ->
  is_bit v4 -> is_bit v5 -> is_bit v6 -> is_bit v7 ->
  bits_of_byte (byte_of_bits v0 v1 v2 v3 v4 v5 v6 v7)
  = [v0; v1; v2; v3; v4; v5; v6; v7].
Proof.
  unfold is_bit.
  intros [-> | ->] [-> | ->] [-> | ->] [-> | ->] [-> | ->] [-> | ->] [-> | ->] [-> | ->];
    reflexivity.
Qed.

(** A stream that packs to bytes starts with the bits of these bytes. *)
Lemma pack_bits_prefix (data : list Z) : forall (bits tail : list Z),
  Forall is_bit bits ->
  pack_bits bits = data ++ tail ->
  exists rest, bits = bits_of data ++ rest.
Proof.
  induction data as [|d data IH]; intros bits tail Hbits Hp; [exists bits; reflexivity|].
  destruct bits as [|v0 [|v1 [|v2 [|v3 [|v4 [|v5 [|v6 [|v7 bits']]]]]]]];
    try discriminate Hp.
  repeat (apply Forall_cons in Hbits; destruct Hbits as [? Hbits]).
  cbn [pack_bits app] in Hp. injection Hp as <- Hp.
  destruct (IH bits' tail Hbits Hp) as [rest ->].
  exists rest. cbn [bits_of]. rewrite bit_of_byte_of_bits by assumption.
  reflexivity.
Qed.

(** [decode], then [encode] of the message found: the carrier is left
    as it is. *)
Lemma decode_then_encode (pix msg : list Z) :
  Forall is_byte pix ->
  decode pix = Done msg ->
  encoded pix msg = Done pix.
Proof.
  intros Hpix Hdec.
  destruct (decode_done_capacity _ _ Hdec) as [Hcap Hlen].
  destruct (proj1 (decode_iff_frame pix msg) Hdec) as [_ [tail Hframe]].
  rewrite decode_pixels_extract in Hframe. unfold extract in Hframe.
  destruct (pack_bits_prefix _ _ _ (carried_bits_are_bits 0 pix) Hframe)
    as [rest Hbits].
  destruct (encode_cases pix msg Hpix) as [[Hlt _] | [_ [r' Henc]]].
  - pose proof (len_nonneg msg). lia.
  - unfold encoded. rewrite Henc. cbn [fst]. f_equal.
    apply (embed_bits_carried pix 0 _ rest Hpix Hbits).
Qed.

(** [encode] of the same message into its own output changes nothing. *)
Lemma encode_twice (pix msg out : list Z) :
  Forall is_byte pix ->
  encoded pix msg = Done out ->
  encoded out msg = Done out.
Proof.
  intros Hpix Henc.
  destruct (encoded_bytes _ _ _ Hpix Henc) as [Hout Hlen].
  pose proof (encoded_done _ _ _ Hpix Henc) as ->.
  destruct (encode_cases pix msg Hpix) as [[_ Hf] | [Hge _]].
  - unfold encoded in Henc. rewrite Hf in Henc. discriminate.
  - destruct (encode_cases _ msg Hout) as [[Hlt _] | [_ [r' Henc']]].
    + rewrite (eligible_count_length _ pix Hlen) in Hlt. lia.
    + unfold encoded. rewrite Henc'. cbn [fst]. f_equal.
      apply embed_bits_twice; [assumption | apply bits_of_are_bits].
Qed.

(** A second message embedded into the output of [encode] is the one
    [decode] finds. *)
Lemma encode_over (pix m1 m2 out1 : list Z) :
  Forall is_byte pix -> Forall is_byte m2 ->
  encoded pix m1 = Done out1 ->
  len m2 < 2 ^ 32 ->
  8 * (8 + len m2) <= eligible_count pix ->
  exists out2, encoded out1 m2 = Done out2 /\ decode out2 = Done m2.
Proof.
  intros Hpix Hm2 Henc Hlen Hcap.
  destruct (encoded_bytes _ _ _ Hpix Henc) as [Hout Hl].
  apply roundtrip_u32; try assumption.
  rewrite (eligible_count_length _ pix Hl). assumption.
Qed.

(** *** What [decode] looks at *)

Lemma carried_bits_same_lsb (pix pix' : list Z) : forall (i : Z),
  Forall2 (fun a b => a mod 2 = b mod 2) pix pix' ->
  lsb <$> eligible_bytes i pix = lsb <$> eligible_bytes i pix'.
Proof.
  intros i H. revert i.
  induction H as [|a b l l' Hab _ IH]; intros i; [reflexivity|].
  cbn [eligible_bytes]. destruct (eligible i); [|apply IH].
  rewrite !fmap_cons. f_equal; [exact Hab | apply IH].
Qed.

(** Only the least-significant bits of a carrier matter to [decode]. *)
Lemma decode_same_lsb (pix pix' : list Z) :
  Forall2 (fun a b => a mod 2 = b mod 2) pix pix' ->
  decode pix = decode pix'.
Proof.
  intros H. unfold decode. rewrite !decode_pixels_extract.
  unfold extract, carried_bits. rewrite (carried_bits_same_lsb pix pix' 0 H).
  reflexivity.
Qed.

(** *** Carriers without a message *)

Lemma Checksum_not_ones (p : list Z) : Checksum p <> 4294967295.
Proof.
  intros Heq. pose proof (Checksum_low p) as Hlow. rewrite Heq in Hlow.
  change (4294967295 mod 2 ^ 16) with 65535 in Hlow.
  unfold adler32_mod in Hlow. generalize dependent (1 + sum_bytes p).
  intros x Hx. zdm.
Qed.

Lemma decode_message_constant (B : Z) (m : nat) :
  B = 0 \/ B = 255 ->
  decode_message (replicate m B) = Fatal noHiddenMessage.
Proof.
  intros HB.
  destruct (Nat.lt_ge_cases m 8) as [Hshort | Hlong].
  - apply decode_message_short.
    + apply replicate_bytes. unfold is_byte. lia.
    + unfold len. rewrite length_replicate. lia.
  - replace m with (8 + (m - 8))%nat by lia. generalize (m - 8)%nat. intros k.
    change (replicate (8 + k) B)
      with (B :: B :: B :: B :: B :: B :: B :: B :: replicate k B).
    destruct HB as [-> | ->].
    + rewrite (decode_message_cases _ _ _ _ (decode_header_8 _ _ _ _ _ _ _ _ _))
        by (change (Uint32 0 0 0 0) with 0; lia).
      change (Uint32 0 0 0 0) with 0.
      assert ((len (replicate k 0) <? 0) = false) as ->
        by (apply Z.ltb_ge, len_nonneg).
      reflexivity.
    + rewrite (decode_message_cases _ _ _ _ (decode_header_8 _ _ _ _ _ _ _ _ _))
        by (change (Uint32 255 255 255 255) with 4294967295; lia).
      change (Uint32 255 255 255 255) with 4294967295.
      destruct (len (replicate k 255) <? 4294967295); [reflexivity|].
      destruct (Z.eqb_spec (Checksum (take (Z.to_nat 4294967295) (replicate k 255)))
                  4294967295) as [Heq | _]; [|reflexivity].
      exfalso. exact (Checksum_not_ones _ Heq).
Qed.

Lemma pack_bits_replicate (v : Z) (q r : nat) :
  (r < 8)%nat ->
  pack_bits (replicate (8 * q + r) v) = replicate q (byte_of_bits v v v v v v v v).
Proof.
  intros Hr. induction q as [|q IH].
  - rewrite pack_bits_short by (rewrite length_replicate; lia). reflexivity.
  - replace (8 * S q + r)%nat with (8 + (8 * q + r))%nat by lia.
    change (replicate (8 + (8 * q + r)) v)
      with (v :: v :: v :: v :: v :: v :: v :: v :: replicate (8 * q + r) v).
    cbn [pack_bits]. rewrite IH. reflexivity.
Qed.

(** A carrier whose eligible bytes all have the same least-significant
    bit holds no message. *)
Lemma decode_constant_lsb (pix : list Z) (v : Z) :
  Forall (fun b => lsb b = v) (eligible_bytes 0 pix) ->
  decode pix = Fatal noHiddenMessage.
Proof.
  intros Hall. unfold decode. rewrite decode_pixels_extract.
  unfold extract, carried_bits.
  assert (lsb <$> eligible_bytes 0 pix
          = replicate (length (eligible_bytes 0 pix)) v) as ->.
  { induction Hall as [|b l Hb _ IH]; [reflexivity|].
    rewrite fmap_cons, Hb, IH. reflexivity. }
  destruct (eligible_bytes 0 pix) as [|b l] eqn:He.
  - reflexivity.
  - apply Forall_cons in Hall. destruct Hall as [Hb _].
    set (n := length (b :: l)).
    rewrite (Nat.div_mod_eq n 8).
    rewrite pack_bits_replicate by (apply Nat.mod_upper_bound; lia).
    apply decode_message_constant.
    subst v. destruct (lsb_is_bit b) as [-> | ->]; [left | right]; reflexivity.
Qed.

Lemma decode_header_len (buf : list Z) (size hash : Z) (msg : list Z) :
  decode_header buf = (size, hash, msg) -> len msg <= len buf.
Proof.
  destruct buf as [|b0 [|b1 [|b2 [|b3 [|b4 [|b5 [|b6 [|b7 rest]]]]]]]];
    unfold decode_header; cbn [Read_uint32]; intros [= _ _ <-];
    rewrite ?len_cons; change (len (@nil Z)) with 0;
    try pose proof (len_nonneg rest); lia.
Qed.

Lemma decode_header_replicate (B : Z) (m : nat) :
  fst (fst (decode_header (replicate m B)))
  = if 4 <=? Z.of_nat m then Uint32 B B B B else 0.
Proof.
  destruct m as [|[|[|[|m]]]]; try reflexivity.
  assert ((4 <=? Z.of_nat (S (S (S (S m))))) = true) as -> by (apply Z.leb_le; lia).
  cbn [replicate]. unfold decode_header. cbn [Read_uint32].
  destruct (Read_uint32 (replicate m B) 0). reflexivity.
Qed.

Lemma decode_pixels_constant (pix : list Z) (v : Z) :
  Forall (fun b => lsb b = v) (eligible_bytes 0 pix) ->
  decode_pixels pix
  = replicate (Z.to_nat (eligible_count pix / 8)) (byte_of_bits v v v v v v v v).
Proof.
  intros Hall. rewrite decode_pixels_extract. unfold extract, carried_bits.
  assert (lsb <$> eligible_bytes 0 pix
          = replicate (length (eligible_bytes 0 pix)) v) as ->.
  { induction Hall as [|b l Hb _ IH]; [reflexivity|].
    rewrite fmap_cons, Hb, IH. reflexivity. }
  unfold eligible_count, len.
  set (n := length (eligible_bytes 0 pix)).
  rewrite (Nat.div_mod_eq n 8) at 1.
  rewrite pack_bits_replicate by (apply Nat.mod_upper_bound; lia).
  f_equal. symmetry. change 8 with (Z.of_nat 8).
  rewrite <- Nat2Z.inj_div. apply Nat2Z.id.
Qed.

Lemma len_decode_pixels (pix : list Z) :
  len (decode_pixels pix) = eligible_count pix / 8.
Proof.
  rewrite decode_pixels_extract. unfold extract.
  rewrite len_pack_bits, len_carried_bits. reflexivity.
Qed.

(** A carrier whose eligible bytes all have the same least-significant
    bit, on either width. *)
Lemma decode_on_constant_lsb (bits : Z) (pix : list Z) (v : Z) :
  bits = 32 \/ bits = 64 ->
  len pix < 2 ^ (bits - 1) ->
  Forall (fun b => lsb b = v) (eligible_bytes 0 pix) ->
  decode_on bits pix =
    if (bits =? 32) && (v =? 1) && (32 <=? eligible_count pix) then Panic
    else Fatal noHiddenMessage.
Proof.
  intros Hbits Hlen Hall.
  destruct (decode_header (decode_pixels pix)) as [[size hash] msg] eqn:Hh.
  rewrite (decode_on_width bits pix _ _ _ Hbits Hh).
  rewrite (decode_constant_lsb pix v Hall).
  destruct Hbits as [-> | ->]; [|reflexivity].
  change (32 =? 32) with true. cbn [andb].
  change (2 ^ (32 - 1)) with 2147483648 in Hlen.
  change (2 ^ 31) with 2147483648.
  pose proof (decode_header_len _ _ _ _ Hh) as Hmsg.
  pose proof (len_decode_pixels pix) as Hbuf.
  pose proof (eligible_count_formula pix) as Hec.
  pose proof (len_nonneg pix) as Hn.
  assert (size = fst (fst (decode_header (decode_pixels pix)))) as Hsize
    by (rewrite Hh; reflexivity).
  rewrite (decode_pixels_constant pix v Hall), decode_header_replicate in Hsize.
  rewrite Z2Nat.id in Hsize by zdm.
  destruct (eligible_bytes 0 pix) as [|b l] eqn:He.
  { assert (eligible_count pix = 0) as Hz by (unfold eligible_count; rewrite He; reflexivity).
    rewrite Hz in *. change (4 <=? 0 / 8) with false in Hsize. subst size.
    change (32 <=? 0) with false. rewrite andb_false_r. reflexivity. }
  apply Forall_cons in Hall. destruct Hall as [Hb _].
  destruct (Z.leb_spec 32 (eligible_count pix)) as [Hge | Hlt].
  - assert ((4 <=? eligible_count pix / 8) = true) as Hq by (apply Z.leb_le; zdm).
    rewrite Hq in Hsize.
    subst v. destruct (lsb_is_bit b) as [Hv | Hv]; rewrite Hv in *.
    + change (byte_of_bits 0 0 0 0 0 0 0 0) with 0 in Hsize.
      change (Uint32 0 0 0 0) with 0 in Hsize. subst size. reflexivity.
    + change (byte_of_bits 1 1 1 1 1 1 1 1) with 255 in Hsize.
      change (Uint32 255 255 255 255) with 4294967295 in Hsize. subst size.
      cbn [andb Z.eqb Pos.eqb].
      assert ((len msg <? 4294967295) = true) as -> by (apply Z.ltb_lt; zdm).
      reflexivity.
  - assert ((4 <=? eligible_count pix / 8) = false) as Hq by (apply Z.leb_gt; zdm).
    rewrite Hq in Hsize. subst size. rewrite andb_false_r. reflexivity.
Qed.

(** *** The bit reader *)

Lemma read_bits_spec (fuel : nat) : forall (br : bitReader),
  0 <= ptr br ->
  read_bits fuel br =
    (take fuel (remaining_bits br),
     {| ptr := ptr br + Z.of_nat (length (take fuel (remaining_bits br)));
        data := data br |}).
Proof.
  induction fuel as [|fuel IH]; intros br Hp.
  - cbn [read_bits take length]. change (Z.of_nat 0) with 0.
    rewrite Z.add_0_r. destruct br as [p d]; reflexivity.
  - cbn [read_bits]. rewrite next_spec by assumption. unfold remaining_bits.
    destruct (bits_of (data br) !! Z.to_nat (ptr br)) as [v|] eqn:Hv.
    + rewrite (drop_S _ v _ Hv). rewrite IH by (cbn [ptr]; lia).
      unfold remaining_bits. cbn [ptr data take length].
      replace (Z.to_nat (ptr br + 1)) with (S (Z.to_nat (ptr br))) by lia.
      f_equal. f_equal. lia.
    + apply lookup_ge_None_1 in Hv. rewrite (drop_ge _ _ Hv).
      rewrite take_nil. cbn [length]. change (Z.of_nat 0) with 0.
      rewrite Z.add_0_r. destruct br as [p d]; reflexivity.
Qed.

Example toy_run :
  match main "in.bmp" "" "msg.txt" toy_world with
  | (Done _, w1) =>
      match main "" "encoded.bmp" "out.txt" w1 with
      | (Done _, w2) => files w2 !! "out.txt"%string
      | _ => None
      end
  | _ => None
  end = Some hello.
Proof. vm_compute. reflexivity. Qed.

(** ** The program around the codec *)

Section Program.
Context {FS : Type} `{Env FS}.

Lemma openImage_files (file : string) (w : world FS) :
  files (snd (openImage file w)) = files w.
Proof.
  unfold openImage.
  destruct (os_Open (files w) file) as [fp | err]; [|reflexivity].
  destruct (bmp_Decode fp) as [[img|] | err]; reflexivity.
Qed.

Lemma openImage_done (file : string) (w w' : world FS) (img : RGBA) :
  openImage file w = (Done img, w') ->
  w' = w /\ exists fp, os_Open (files w) file = inl fp
                       /\ bmp_Decode fp = inl (ImageRGBA img).
Proof.
  unfold openImage.
  destruct (os_Open (files w) file) as [fp | err]; [|discriminate].
  destruct (bmp_Decode fp) as [[img'|] | err] eqn:Hd; try discriminate.
  intros [= <- <-]. eauto.
Qed.

Lemma openImage_opens (file : string) (w : world FS) (fp : list Z) (img : RGBA) :
  os_Open (files w) file = inl fp ->
  bmp_Decode fp = inl (ImageRGBA img) ->
  openImage file w = (Done img, w).
Proof. intros Ho Hd. unfold openImage. rewrite Ho, Hd. reflexivity. Qed.

(** What [decode(fin, fout)] may leave in the files. *)
Lemma decode_cmd_on_files (bits : Z) (fin fout : string) (w w' : world FS)
    (res : result unit) :
  decode_cmd_on bits fin fout w = (res, w') ->
  files w' = files w
  \/ exists fp img payload,
       os_Open (files w) fin = inl fp
       /\ bmp_Decode fp = inl (ImageRGBA img)
       /\ decode_on bits (Pix img) = Done payload
       /\ files w' = fst (ioutil_WriteFile (files w) fout payload).
Proof.
  unfold decode_cmd_on, bind.
  destruct (openImage fin w) as [[img | m |] w1] eqn:Ho.
  - destruct (openImage_done _ _ _ _ Ho) as [-> (fp & Hfp & Hd)].
    destruct (decode_on bits (Pix img)) as [payload | m |] eqn:Hdec.
    + destruct (ioutil_WriteFile (files w) fout payload) as [fs [err|]] eqn:Hw;
        intros [= _ <-]; right; exists fp, img, payload; rewrite Hw; auto.
    + intros [= _ <-]. left. reflexivity.
    + intros [= _ <-]. left. reflexivity.
  - intros [= _ <-]. left. rewrite <- (openImage_files fin w), Ho. reflexivity.
  - intros [= _ <-]. left. rewrite <- (openImage_files fin w), Ho. reflexivity.
Qed.

Lemma decode_cmd_files (fin fout : string) (w w' : world FS) (res : result unit) :
  decode_cmd fin fout w = (res, w') ->
  files w' = files w
  \/ exists fp img payload,
       os_Open (files w) fin = inl fp
       /\ bmp_Decode fp = inl (ImageRGBA img)
       /\ decode (Pix img) = Done payload
       /\ files w' = fst (ioutil_WriteFile (files w) fout payload).
Proof. apply (decode_cmd_on_files 64). Qed.

(** What [encode(fin, fout, fmsg)] may leave in the files. *)
Lemma encode_cmd_files (fin fout fmsg : string) (w w' : world FS) (res : result unit) :
  encode_cmd fin fout fmsg w = (res, w') ->
  files w' = files w
  \/ exists fp img payload out fs1,
       os_Open (files w) fin = inl fp
       /\ bmp_Decode fp = inl (ImageRGBA img)
       /\ ioutil_ReadFile (files w) fmsg = inl payload
       /\ encoded (Pix img) payload = Done out
       /\ os_Create (files w) fout = inl fs1
       /\ files w' = fst (bmp_Encode fs1 fout {| Rect := Rect img; Pix := out |}).
Proof.
  unfold encode_cmd, bind.
  destruct (openImage fin w) as [[img | m |] w1] eqn:Ho.
  - destruct (openImage_done _ _ _ _ Ho) as [-> (fp & Hfp & Hd)].
    destruct (ioutil_ReadFile (files w) fmsg) as [payload | err] eqn:Hr;
      [|intros [= _ <-]; left; reflexivity].
    destruct (encoded (Pix img) payload) as [out | m |] eqn:Henc;
      [|intros [= _ <-]; left; reflexivity..].
    destruct (os_Create (files w) fout) as [fs1 | err] eqn:Hc;
      [|intros [= _ <-]; left; reflexivity].
    destruct (bmp_Encode fs1 fout {| Rect := Rect img; Pix := out |})
      as [fs2 [err|]] eqn:He;
      intros [= _ <-]; right; exists fp, img, payload, out, fs1; rewrite He; auto 10.
  - intros [= _ <-]. left. rewrite <- (openImage_files fin w), Ho. reflexivity.
  - intros [= _ <-]. left. rewrite <- (openImage_files fin w), Ho. reflexivity.
Qed.

(** [encode] stops at its size check before any file is created. *)
Lemma encode_cmd_too_large (fin fout fmsg : string) (w : world FS)
    (fp : list Z) (img : RGBA) (msg : list Z) :
  os_Open (files w) fin = inl fp ->
  bmp_Decode fp = inl (ImageRGBA img) ->
  ioutil_ReadFile (files w) fmsg = inl msg ->
  Forall is_byte (Pix img) ->
  eligible_count (Pix img) < 8 + len msg ->
  encode_cmd fin fout fmsg w =
    (Fatal messageTooLarge,
     {| files := files w; stdout := stdout w ++ [messageTooLarge];
        stderr := stderr w |}).
Proof.
  intros Ho Hd Hr Hpix Hcap. unfold encode_cmd, bind.
  rewrite (openImage_opens _ _ _ _ Ho Hd), Hr.
  unfold encoded.
  destruct (encode_cases (Pix img) msg Hpix) as [[_ ->] | [Hge _]]; [|lia].
  reflexivity.
Qed.

(** When [bmp.Encode] fails, [err] still holds the nil error that
    [os.Create] left in it: that is what is printed. *)
Lemma encode_cmd_encode_error (fin fout fmsg : string) (w : world FS)
    (fp : list Z) (img : RGBA) (msg out : list Z) (fs1 fs2 : FS) (text : string) :
  os_Open (files w) fin = inl fp ->
  bmp_Decode fp = inl (ImageRGBA img) ->
  ioutil_ReadFile (files w) fmsg = inl msg ->
  encoded (Pix img) msg = Done out ->
  os_Create (files w) fout = inl fs1 ->
  bmp_Encode fs1 fout {| Rect := Rect img; Pix := out |} = (fs2, Some text) ->
  encode_cmd fin fout fmsg w =
    (Fatal (error_text None),
     {| files := fs2; stdout := stdout w ++ [error_text None];
        stderr := stderr w |}).
Proof.
  intros Ho Hd Hr Henc Hc He. unfold encode_cmd, bind.
  rewrite (openImage_opens _ _ _ _ Ho Hd), Hr, Henc, Hc, He. reflexivity.
Qed.

(** When [os.Create] fails, its error is printed and [bmp.Encode] is not
    called. *)
Lemma encode_cmd_create_error (fin fout fmsg : string) (w : world FS)
    (fp : list Z) (img : RGBA) (msg out : list Z) (text : string) :
  os_Open (files w) fin = inl fp ->
  bmp_Decode fp = inl (ImageRGBA img) ->
  ioutil_ReadFile (files w) fmsg = inl msg ->
  encoded (Pix img) msg = Done out ->
  os_Create (files w) fout = inr text ->
  encode_cmd fin fout fmsg w =
    (Fatal text,
     {| files := files w; stdout := stdout w ++ [text]; stderr := stderr w |}).
Proof.
  intros Ho Hd Hr Henc Hc. unfold encode_cmd, bind.
  rewrite (openImage_opens _ _ _ _ Ho Hd), Hr, Henc, Hc. reflexivity.
Qed.

Lemma main_on_encode (bits : Z) (enc msg : string) (w : world FS) :
  enc <> ""%string -> msg <> ""%string ->
  main_on bits enc "" msg w =
    (_ <- encode_cmd enc (path_Join (path_Dir enc) "encoded.bmp") msg ;;
     Println "Done!")
      {| files := files w;
         stdout := (stdout w ++ ["Hidden Message"%string]) ++ [copyright];
         stderr := stderr w |}.
Proof.
  intros He Hm. unfold main_on, bind at 1 2, Println at 1 2.
  cbn [files stdout stderr].
  apply String.eqb_neq in He, Hm. rewrite He, Hm. reflexivity.
Qed.

Lemma main_on_decode (bits : Z) (enc dec msg : string) (w : world FS) :
  dec <> ""%string -> msg <> ""%string ->
  main_on bits enc dec msg w =
    (_ <- decode_cmd_on bits dec msg ;; Println "Done!")
      {| files := files w;
         stdout := (stdout w ++ ["Hidden Message"%string]) ++ [copyright];
         stderr := stderr w |}.
Proof.
  intros Hd Hm. unfold main_on, bind at 1 2, Println at 1 2.
  cbn [files stdout stderr].
  apply String.eqb_neq in Hd, Hm. rewrite Hd, Hm. reflexivity.
Qed.

Lemma main_on_usage (bits : Z) (enc dec msg : string) (w : world FS) :
  msg = ""%string \/ (dec = ""%string /\ enc = ""%string) ->
  main_on bits enc dec msg w =
    (Fatal "",
     {| files := files w;
        stdout := ((stdout w ++ ["Hidden Message"%string]) ++ [copyright])
                  ++ [""%string];
        stderr := stderr w ++ flag_PrintDefaults |}).
Proof.
  intros Hcase. unfold main_on, bind at 1 2, Println at 1 2.
  cbn [files stdout stderr].
  destruct Hcase as [-> | [-> ->]].
  - reflexivity.
  - destruct (String.eqb msg ""); reflexivity.
Qed.

Lemma main_encode (enc msg : string) (w : world FS) :
  enc <> ""%string -> msg <> ""%string ->
  main enc "" msg w =
    (_ <- encode_cmd enc (path_Join (path_Dir enc) "encoded.bmp") msg ;;
     Println "Done!")
      {| files := files w;
         stdout := (stdout w ++ ["Hidden Message"%string]) ++ [copyright];
         stderr := stderr w |}.
Proof. apply main_on_encode. Qed.

Lemma main_decode (enc dec msg : string) (w : world FS) :
  dec <> ""%string -> msg <> ""%string ->
  main enc dec msg w =
    (_ <- decode_cmd dec msg ;; Println "Done!")
      {| files := files w;
         stdout := (stdout w ++ ["Hidden Message"%string]) ++ [copyright];
         stderr := stderr w |}.
Proof. apply main_on_decode. Qed.

Lemma main_usage (enc dec msg : string) (w : world FS) :
  msg = ""%string \/ (dec = ""%string /\ enc = ""%string) ->
  main enc dec msg w =
    (Fatal "",
     {| files := files w;
        stdout := ((stdout w ++ ["Hidden Message"%string]) ++ [copyright])
                  ++ [""%string];
        stderr := stderr w ++ flag_PrintDefaults |}).
Proof. apply main_on_usage. Qed.

End Program.

Section MainProgram.
Context {FS : Type} `{Env FS}.

(** The files after [main]: untouched, or written once by the command
    the flags select. *)
Lemma main_files (enc dec msg : string) (w w' : world FS) (res : result unit) :
  main enc dec msg w = (res, w') ->
  files w' = files w
  \/ (msg <> ""%string /\ dec <> ""%string
      /\ exists fp img payload,
           os_Open (files w) dec = inl fp
           /\ bmp_Decode fp = inl (ImageRGBA img)
           /\ decode (Pix img) = Done payload
           /\ files w' = fst (ioutil_WriteFile (files w) msg payload))
  \/ (msg <> ""%string /\ dec = ""%string /\ enc <> ""%string
      /\ exists fp img payload out fs1,
           os_Open (files w) enc = inl fp
           /\ bmp_Decode fp = inl (ImageRGBA img)
           /\ ioutil_ReadFile (files w) msg = inl payload
           /\ encoded (Pix img) payload = Done out
           /\ os_Create (files w) (path_Join (path_Dir enc) "encoded.bmp") = inl fs1
           /\ files w' =
                fst (bmp_Encode fs1 (path_Join (path_Dir enc) "encoded.bmp")
                       {| Rect := Rect img; Pix := out |})).
Proof.
  destruct (String.eqb_spec msg "") as [Hm | Hm].
  { rewrite main_usage by auto. intros [= _ <-]. left. reflexivity. }
  destruct (String.eqb_spec dec "") as [Hd | Hd].
  - destruct (String.eqb_spec enc "") as [He | He].
    { rewrite main_usage by auto. intros [= _ <-]. left. reflexivity. }
    subst dec. rewrite main_encode by assumption. unfold bind at 1.
    set (w0 := {| files := files w;
                  stdout := (stdout w ++ ["Hidden Message"%string]) ++ [copyright];
                  stderr := stderr w |}).
    destruct (encode_cmd enc (path_Join (path_Dir enc) "encoded.bmp") msg w0)
      as [r1 w1] eqn:Hrun.
    destruct (encode_cmd_files _ _ _ _ _ _ Hrun) as [Hsame | Hwrote].
    + intros Hres. left.
      destruct r1; injection Hres as _ <-; exact Hsame.
    + intros Hres. right. right. repeat split; try assumption.
      destruct r1; injection Hres as _ <-; exact Hwrote.
  - rewrite main_decode by assumption. unfold bind at 1.
    set (w0 := {| files := files w;
                  stdout := (stdout w ++ ["Hidden Message"%string]) ++ [copyright];
                  stderr := stderr w |}).
    destruct (decode_cmd dec msg w0) as [r1 w1] eqn:Hrun.
    destruct (decode_cmd_files _ _ _ _ _ Hrun) as [Hsame | Hwrote].
    + intros Hres. left.
      destruct r1; injection Hres as _ <-; exact Hsame.
    + intros Hres. right. left. repeat split; try assumption.
      destruct r1; injection Hres as _ <-; exact Hwrote.
Qed.

(** [main -encode], then [main -decode] on its output: the payload is
    what is written. *)
Lemma main_encode_decode (enc msgfile : string) (w : world FS)
    (fp : list Z) (img : RGBA) (payload : list Z) (fs1 fs2 : FS)
    (fp2 : list Z) (img2 : RGBA) :
  let dest := path_Join (path_Dir enc) "encoded.bmp" in
  let out := embed_bits 0 (Pix img) (bits_of (frame payload)) in
  enc <> ""%string -> msgfile <> ""%string -> dest <> ""%string ->
  os_Open (files w) enc = inl fp ->
  bmp_Decode fp = inl (ImageRGBA img) ->
  ioutil_ReadFile (files w) msgfile = inl payload ->
  Forall is_byte (Pix img) -> Forall is_byte payload ->
  len payload < 2 ^ 32 ->
  8 * (8 + len payload) <= eligible_count (Pix img) ->
  os_Create (files w) dest = inl fs1 ->
  bmp_Encode fs1 dest {| Rect := Rect img; Pix := out |} = (fs2, None) ->
  os_Open fs2 dest = inl fp2 ->
  bmp_Decode fp2 = inl (ImageRGBA img2) ->
  Pix img2 = out ->
  exists w1,
    main enc "" msgfile w = (Done tt, w1)
    /\ files w1 = fs2
    /\ forall outfile fs3,
         outfile <> ""%string ->
         ioutil_WriteFile fs2 outfile payload = (fs3, None) ->
         exists w2, main "" dest outfile w1 = (Done tt, w2) /\ files w2 = fs3.
Proof.
  intros dest out He Hm Hdest Ho Hd Hr Hpix Hpay Hlen Hcap Hc Henc Ho2 Hd2 Hpix2.
  destruct (roundtrip_u32 _ _ Hpix Hpay Hlen Hcap) as (out' & Hout & Hdec).
  assert (out' = out) as -> by (apply (encoded_done _ _ _ Hpix Hout)).
  exists {| files := fs2;
            stdout := ((stdout w ++ ["Hidden Message"%string]) ++ [copyright])
                      ++ ["Done!"%string];
            stderr := stderr w |}.
  split; [|split].
  - rewrite main_encode by assumption. unfold bind at 1. unfold encode_cmd, bind.
    rewrite (openImage_opens _ _ fp img) by assumption.
    cbn [files]. rewrite Hr, Hout. fold dest. rewrite Hc, Henc. reflexivity.
  - reflexivity.
  - intros outfile fs3 Hof Hw.
    eexists. split.
    + rewrite main_decode by assumption. unfold bind at 1.
      unfold decode_cmd, decode_cmd_on, bind.
      rewrite (openImage_opens _ _ fp2 img2) by assumption.
      change (decode_on 64 (Pix img2)) with (decode (Pix img2)).
      rewrite Hpix2, Hdec. cbn [files]. rewrite Hw. reflexivity.
    + reflexivity.
Qed.

End MainProgram.

(** ** Further properties of the program *)

(** X1: [encode] ends with "message is to large" exactly when the frame
    of the message, 8 bytes and the message, has more bytes than the
    carrier has eligible bytes, which are [len - len / 4]. *)
Theorem size_check_in_bytes (pix msg : list Z) :
  Forall is_byte pix ->
  (fst (encode pix msg) = Fatal messageTooLarge
   <-> len pix - len pix / 4 < 8 + len msg)
  /\ eligible_count pix = len pix - len pix / 4.
Proof.
  intros Hpix. rewrite <- eligible_count_formula.
  split; [apply encode_refuses_iff; assumption | reflexivity].
Qed.

Lemma size_check_in_bytes_witness :
  Forall is_byte [1; 2; 3; 4]
  /\ fst (encode [1; 2; 3; 4] hello) = Fatal messageTooLarge.
Proof.
  assert (Forall is_byte [1; 2; 3; 4]) as Hb by bytes_tac.
  split; [assumption|].
  apply (proj2 (proj1 (size_check_in_bytes [1; 2; 3; 4] hello Hb))).
  vm_compute. reflexivity.
Defined.

(** X2: a message of fewer than [2 ^ 32] bytes whose frame passes the
    size check of [encode] but has more bits than the carrier has eligible
    bytes is embedded only in part: [encode] succeeds, and [decode] of its
    output finds no message. *)
Theorem oversized_message_lost (pix msg : list Z) :
  Forall is_byte pix -> Forall is_byte msg ->
  len msg < 2 ^ 32 ->
  8 + len msg <= eligible_count pix ->
  eligible_count pix < 8 * (8 + len msg) ->
  exists out,
    encoded pix msg = Done out /\ decode out = Fatal noHiddenMessage.
Proof. apply encode_truncates. Qed.

Lemma oversized_message_lost_witness :
  exists out,
    encoded (replicate 40 200) hello = Done out
    /\ decode out = Fatal noHiddenMessage.
Proof.
  apply oversized_message_lost.
  - apply replicate_bytes. unfold is_byte. lia.
  - unfold hello. bytes_tac.
  - vm_compute. reflexivity.
  - vm_compute. discriminate.
  - vm_compute. reflexivity.
Defined.

(** X3: the output of [encode] has the length of the source, and each of
    its bytes is a byte with the seven higher bits of the source byte: it
    differs from it by 1 at most. *)
Theorem encode_changes_lsb_only (pix msg out : list Z) :
  Forall is_byte pix ->
  encoded pix msg = Done out ->
  length out = length pix
  /\ Forall2 (fun a b => is_byte a /\ Z.shiftr a 1 = Z.shiftr b 1 /\ Z.abs (a - b) <= 1)
       out pix.
Proof.
  intros Hpix Henc. rewrite (encoded_done _ _ _ Hpix Henc).
  split; [apply length_embed_bits|].
  apply embed_bits_near; [assumption | apply bits_of_are_bits].
Qed.

Lemma encode_changes_lsb_only_witness :
  length hello_carrier = length small_carrier
  /\ Forall2 (fun a b => is_byte a /\ Z.shiftr a 1 = Z.shiftr b 1 /\ Z.abs (a - b) <= 1)
       hello_carrier small_carrier.
Proof.
  apply (encode_changes_lsb_only small_carrier hello hello_carrier).
  - apply replicate_bytes. unfold is_byte. lia.
  - vm_compute. reflexivity.
Defined.

(** X4: [encode] of a message into the output of [encode] of the same
    message gives that output again. *)
Theorem encode_idempotent (pix msg out : list Z) :
  Forall is_byte pix ->
  encoded pix msg = Done out ->
  encoded out msg = Done out.
Proof. apply encode_twice. Qed.

Lemma encode_idempotent_witness :
  encoded hello_carrier hello = Done hello_carrier.
Proof.
  apply (encode_idempotent small_carrier hello hello_carrier).
  - apply replicate_bytes. unfold is_byte. lia.
  - vm_compute. reflexivity.
Defined.

(** X5: when [decode] finds a message in a carrier, [encode] of that
    message into the carrier succeeds and returns the carrier
    unchanged. *)
Theorem decode_then_encode_identity (pix msg : list Z) :
  Forall is_byte pix ->
  decode pix = Done msg ->
  encoded pix msg = Done pix.
Proof. apply decode_then_encode. Qed.

Lemma decode_then_encode_identity_witness :
  encoded hello_carrier hello = Done hello_carrier.
Proof.
  apply decode_then_encode_identity.
  - apply embed_bits_bytes; [|apply bits_of_are_bits].
    apply replicate_bytes. unfold is_byte. lia.
  - vm_compute. reflexivity.
Defined.

(** X6: a second message embedded into the output of [encode] replaces
    the first: when it has fewer than [2 ^ 32] bytes and the carrier has
    the eligible bytes its frame needs, [decode] finds the second
    message. *)
Theorem encode_overwrites (pix m1 m2 out1 : list Z) :
  Forall is_byte pix -> Forall is_byte m2 ->
  encoded pix m1 = Done out1 ->
  len m2 < 2 ^ 32 ->
  8 * (8 + len m2) <= eligible_count pix ->
  exists out2, encoded out1 m2 = Done out2 /\ decode out2 = Done m2.
Proof. apply encode_over. Qed.

Lemma encode_overwrites_witness :
  exists out2, encoded hello_carrier [1; 2] = Done out2 /\ decode out2 = Done [1; 2].
Proof.
  apply (encode_overwrites small_carrier hello [1; 2] hello_carrier).
  - apply replicate_bytes. unfold is_byte. lia.
  - bytes_tac.
  - vm_compute. reflexivity.
  - vm_compute. reflexivity.
  - vm_compute. discriminate.
Defined.

(** X7: [decode] returns a message exactly when the bytes gathered from
    the carrier start with the frame of that message (its length, its
    Adler-32 checksum, and the message), the message having fewer than
    [2 ^ 32] bytes. *)
Theorem decode_success_iff_frame (pix msg : list Z) :
  decode pix = Done msg
  <-> len msg < 2 ^ 32 /\ exists tail, decode_pixels pix = frame msg ++ tail.
Proof. apply decode_iff_frame. Qed.

(** X8: a message that [decode] returns has fewer than [2 ^ 32] bytes
    and satisfies the capacity relation of its carrier: the 8 bits of
    each byte of its frame have an eligible byte. *)
Theorem decoded_message_fits (pix msg : list Z) :
  decode pix = Done msg ->
  8 * (8 + len msg) <= eligible_count pix /\ len msg < 2 ^ 32.
Proof. apply decode_done_capacity. Qed.

Lemma decoded_message_fits_witness :
  8 * (8 + len hello) <= eligible_count hello_carrier /\ len hello < 2 ^ 32.
Proof.
  apply decoded_message_fits. vm_compute. reflexivity.
Defined.

(** X9: [decode] looks at the least-significant bits only: two carriers
    whose bytes agree modulo 2 give the same result. *)
Theorem decode_reads_lsb_only (pix pix' : list Z) :
  Forall2 (fun a b => a mod 2 = b mod 2) pix pix' ->
  decode pix = decode pix'.
Proof. apply decode_same_lsb. Qed.

Lemma decode_reads_lsb_only_witness :
  decode [2; 5; 6] = decode [0; 1; 0].
Proof.
  apply decode_reads_lsb_only. repeat constructor.
Defined.

(** X10: a carrier whose eligible bytes all have the same
    least-significant bit [v] (a blank image, for one) holds no message.
    [decode] ends with "image did not contain a hidden message", except
    where [int] has 32 bits, [v] is 1 and there are 32 eligible bytes or
    more: the size read is then [2 ^ 32 - 1] and [decode] panics at
    [msg[:size]].  The length of the carrier fits an [int]. *)
Theorem constant_lsb_carrier_outcome (bits : Z) (pix : list Z) (v : Z) :
  bits = 32 \/ bits = 64 ->
  len pix < 2 ^ (bits - 1) ->
  Forall (fun b => lsb b = v) (eligible_bytes 0 pix) ->
  decode_on bits pix =
    if (bits =? 32) && (v =? 1) && (32 <=? eligible_count pix) then Panic
    else Fatal noHiddenMessage.
Proof. apply decode_on_constant_lsb. Qed.

Lemma constant_lsb_carrier_outcome_witness :
  decode_on 64 (replicate 44 255) = Fatal noHiddenMessage
  /\ decode_on 32 (replicate 44 255) = Panic
  /\ decode_on 32 (replicate 44 0) = Fatal noHiddenMessage.
Proof.
  split; [|split].
  - apply (constant_lsb_carrier_outcome 64 (replicate 44 255) 1);
      [right; reflexivity | vm_compute; reflexivity
      | vm_compute; repeat constructor].
  - apply (constant_lsb_carrier_outcome 32 (replicate 44 255) 1);
      [left; reflexivity | vm_compute; reflexivity
      | vm_compute; repeat constructor].
  - apply (constant_lsb_carrier_outcome 32 (replicate 44 0) 0);
      [left; reflexivity | vm_compute; reflexivity
      | vm_compute; repeat constructor].
Defined.

(** X11: from a position [ptr >= 0], [next] returns bit [ptr mod 8],
    counted from the most significant one, of byte [ptr / 8] with no
    error and moves on by one bit; once [ptr] has reached [8 * len data]
    it returns [io.EOF] and leaves the reader as it is. *)
Theorem next_hands_out_bits (br : bitReader) :
  0 <= ptr br ->
  (forall b,
     data br !! Z.to_nat (ptr br / 8) = Some b ->
     next br = (Done (bit_of_byte b (ptr br mod 8), nilError),
                {| ptr := ptr br + 1; data := data br |})
     /\ is_bit (bit_of_byte b (ptr br mod 8)))
  /\ (8 * len (data br) <= ptr br -> next br = (Done (0, EOF), br)).
Proof.
  intros Hp. rewrite next_spec by assumption. split.
  - intros b Hb. split; [|apply bit_of_byte_is_bit].
    replace (Z.to_nat (ptr br))
      with (8 * Z.to_nat (ptr br / 8) + Z.to_nat (ptr br mod 8))%nat by zdm.
    rewrite (bits_of_lookup _ _ _ b Hb) by zdm.
    rewrite Z2Nat.id by zdm. reflexivity.
  - intros Hend. rewrite lookup_ge_None_2; [reflexivity|].
    rewrite length_bits_of. unfold len in Hend. lia.
Qed.

Lemma next_hands_out_bits_witness :
  next {| ptr := 9; data := [0; 64] |}
  = (Done (1, nilError), {| ptr := 10; data := [0; 64] |})
  /\ next {| ptr := 16; data := [0; 64] |}
     = (Done (0, EOF), {| ptr := 16; data := [0; 64] |}).
Proof.
  assert (0 <= ptr {| ptr := 9; data := [0; 64] |}) as H9 by (vm_compute; discriminate).
  assert (0 <= ptr {| ptr := 16; data := [0; 64] |}) as H16
    by (vm_compute; discriminate).
  split.
  - apply (proj1 (proj1 (next_hands_out_bits _ H9) 64 eq_refl)).
  - apply (proj2 (next_hands_out_bits _ H16)). vm_compute. discriminate.
Defined.

(** X12: calling [next] on the reader of a message until [io.EOF] hands
    out the bits of the frame of the message, 8 per byte; packed MSB
    first they are the frame, and the reader then stays at [io.EOF]. *)
Theorem reader_yields_frame (msg : list Z) (fuel : nat) :
  Forall is_byte msg ->
  8 * (8 + len msg) <= Z.of_nat fuel ->
  fst (read_bits fuel (newBitReader msg)) = bits_of (frame msg)
  /\ pack_bits (fst (read_bits fuel (newBitReader msg))) = frame msg
  /\ fst (next (snd (read_bits fuel (newBitReader msg)))) = Done (0, EOF).
Proof.
  intros Hmsg Hfuel.
  rewrite read_bits_spec by (cbn; lia). cbn [fst snd].
  unfold remaining_bits. change (ptr (newBitReader msg)) with 0.
  change (Z.to_nat 0) with 0%nat. rewrite drop_0, newBitReader_frame.
  assert (len (frame msg) = 8 + len msg) as Hlen
    by (rewrite <- newBitReader_frame; apply len_newBitReader).
  rewrite take_ge by (rewrite length_bits_of; unfold len in *; lia).
  split; [reflexivity|]. split.
  - rewrite <- (app_nil_r (bits_of (frame msg))).
    rewrite pack_bits_of by (apply frame_bytes; assumption).
    apply app_nil_r.
  - rewrite next_spec by (cbn [ptr]; lia). cbn [ptr data].
    rewrite lookup_ge_None_2; [reflexivity|]. lia.
Qed.

Lemma reader_yields_frame_witness :
  pack_bits (fst (read_bits 200 (newBitReader hello))) = frame hello.
Proof.
  apply (reader_yields_frame hello 200).
  - unfold hello. bytes_tac.
  - vm_compute. discriminate.
Defined.


(** X13: [decode(fin, fout)] writes nothing but a verified message:
    whatever its outcome, either the files are as before, or the image
    opened as an [*image.RGBA], [decode] found a message in its pixels and
    the files are those [ioutil.WriteFile] of that message to [fout]
    left. *)
Theorem decode_cmd_writes_verified {FS : Type} `{Env FS}
    (fin fout : string) (w w' : world FS) (res : result unit) :
  decode_cmd fin fout w = (res, w') ->
  files w' = files w
  \/ exists fp img payload,
       os_Open (files w) fin = inl fp
       /\ bmp_Decode fp = inl (ImageRGBA img)
       /\ decode (Pix img) = Done payload
       /\ files w' = fst (ioutil_WriteFile (files w) fout payload).
Proof. apply decode_cmd_files. Qed.

Lemma decode_cmd_writes_verified_witness :
  files (snd (decode_cmd "encoded.bmp" "out.txt" encoded_world)) = files encoded_world
  \/ exists fp img payload,
       os_Open (files encoded_world) "encoded.bmp" = inl fp
       /\ bmp_Decode fp = inl (ImageRGBA img)
       /\ decode (Pix img) = Done payload
       /\ files (snd (decode_cmd "encoded.bmp" "out.txt" encoded_world))
          = fst (ioutil_WriteFile (files encoded_world) "out.txt" payload).
Proof.
  apply (decode_cmd_writes_verified "encoded.bmp" "out.txt" encoded_world _
           (fst (decode_cmd "encoded.bmp" "out.txt" encoded_world))).
  apply surjective_pairing.
Defined.

(** X14: when the image opens, the message file is read and the frame
    has more bytes than the image has eligible bytes, [encode(fin, fout,
    fmsg)] prints "message is to large" and exits before [os.Create]: the
    files are as before. *)
Theorem encode_cmd_refusal_creates_nothing {FS : Type} `{Env FS}
    (fin fout fmsg : string) (w : world FS)
    (fp : list Z) (img : RGBA) (msg : list Z) :
  os_Open (files w) fin = inl fp ->
  bmp_Decode fp = inl (ImageRGBA img) ->
  ioutil_ReadFile (files w) fmsg = inl msg ->
  Forall is_byte (Pix img) ->
  eligible_count (Pix img) < 8 + len msg ->
  encode_cmd fin fout fmsg w =
    (Fatal messageTooLarge,
     {| files := files w; stdout := stdout w ++ [messageTooLarge];
        stderr := stderr w |}).
Proof. apply encode_cmd_too_large. Qed.

Lemma encode_cmd_refusal_creates_nothing_witness :
  encode_cmd "in.bmp" "encoded.bmp" "msg.txt" tiny_world =
    (Fatal messageTooLarge,
     {| files := files tiny_world; stdout := [messageTooLarge]; stderr := [] |}).
Proof.
  apply (encode_cmd_refusal_creates_nothing "in.bmp" "encoded.bmp" "msg.txt"
           tiny_world [1; 2; 3; 4] {| Rect := (1, 1); Pix := [1; 2; 3; 4] |} hello).
  - vm_compute. reflexivity.
  - vm_compute. reflexivity.
  - vm_compute. reflexivity.
  - cbn [Pix]. bytes_tac.
  - vm_compute. reflexivity.
Defined.

(** X15: the error that [encode] reports after [os.Create] and after
    [bmp.Encode] is the one variable [err], which only [os.Create] sets.
    When [os.Create] fails, its error is printed and the files are as
    before; when [os.Create] succeeded and [bmp.Encode] fails, [err] is
    the nil error: the line printed is "<nil>", whatever the error of
    [bmp.Encode] was, and the files are as [bmp.Encode] left them. *)
Theorem encode_reports_create_error {FS : Type} `{Env FS}
    (fin fout fmsg : string) (w : world FS)
    (fp : list Z) (img : RGBA) (msg out : list Z) :
  os_Open (files w) fin = inl fp ->
  bmp_Decode fp = inl (ImageRGBA img) ->
  ioutil_ReadFile (files w) fmsg = inl msg ->
  encoded (Pix img) msg = Done out ->
  (forall text,
     os_Create (files w) fout = inr text ->
     encode_cmd fin fout fmsg w =
       (Fatal text,
        {| files := files w; stdout := stdout w ++ [text]; stderr := stderr w |}))
  /\ (forall fs1 fs2 text,
        os_Create (files w) fout = inl fs1 ->
        bmp_Encode fs1 fout {| Rect := Rect img; Pix := out |} = (fs2, Some text) ->
        encode_cmd fin fout fmsg w =
          (Fatal "<nil>",
           {| files := fs2; stdout := stdout w ++ ["<nil>"%string];
              stderr := stderr w |})).
Proof.
  intros Ho Hd Hr Henc. split.
  - intros text Hc. exact (encode_cmd_create_error _ _ _ _ _ _ _ _ _ Ho Hd Hr Henc Hc).
  - intros fs1 fs2 text Hc He.
    exact (encode_cmd_encode_error _ _ _ _ _ _ _ _ _ _ _ Ho Hd Hr Henc Hc He).
Qed.

Lemma encode_reports_create_error_witness :
  @encode_cmd _ full_disk_env "in.bmp" "encoded.bmp" "msg.txt" toy_world
  = (Fatal "<nil>",
     {| files := <["encoded.bmp"%string := []]> toy_files;
        stdout := ["<nil>"%string]; stderr := [] |}).
Proof.
  assert (@os_Open _ full_disk_env (files toy_world) "in.bmp" = inl small_carrier)
    as Ho by (vm_compute; reflexivity).
  assert (@bmp_Decode _ full_disk_env small_carrier
          = inl (ImageRGBA {| Rect := (len small_carrier / 4, 1);
                              Pix := small_carrier |}))
    as Hd by (vm_compute; reflexivity).
  assert (@ioutil_ReadFile _ full_disk_env (files toy_world) "msg.txt" = inl hello)
    as Hr by (vm_compute; reflexivity).
  assert (encoded small_carrier hello = Done hello_carrier)
    as Henc by (vm_compute; reflexivity).
  apply (proj2 (@encode_reports_create_error _ full_disk_env
                  "in.bmp" "encoded.bmp" "msg.txt" toy_world small_carrier
                  {| Rect := (len small_carrier / 4, 1); Pix := small_carrier |}
                  hello hello_carrier Ho Hd Hr Henc)
           (<["encoded.bmp"%string := []]> toy_files)
           (<["encoded.bmp"%string := []]> toy_files)
           "no space left on device").
  - vm_compute. reflexivity.
  - vm_compute. reflexivity.
Defined.

(** X16: [main] writes at most one file.  Whatever the flags and the
    outcome, the files are as before, or [-msg] and [-decode] were given
    and the files are those left by writing the decoded message to the
    file of [-msg], or [-msg] and [-encode] were given, not [-decode],
    and the files are those left by [bmp.Encode] on "encoded.bmp" in the
    directory of the source image. *)
Theorem main_writes_one_file {FS : Type} `{Env FS}
    (enc dec msg : string) (w w' : world FS) (res : result unit) :
  main enc dec msg w = (res, w') ->
  files w' = files w
  \/ (msg <> ""%string /\ dec <> ""%string
      /\ exists fp img payload,
           os_Open (files w) dec = inl fp
           /\ bmp_Decode fp = inl (ImageRGBA img)
           /\ decode (Pix img) = Done payload
           /\ files w' = fst (ioutil_WriteFile (files w) msg payload))
  \/ (msg <> ""%string /\ dec = ""%string /\ enc <> ""%string
      /\ exists fp img payload out fs1,
           os_Open (files w) enc = inl fp
           /\ bmp_Decode fp = inl (ImageRGBA img)
           /\ ioutil_ReadFile (files w) msg = inl payload
           /\ encoded (Pix img) payload = Done out
           /\ os_Create (files w) (path_Join (path_Dir enc) "encoded.bmp") = inl fs1
           /\ files w' =
                fst (bmp_Encode fs1 (path_Join (path_Dir enc) "encoded.bmp")
                       {| Rect := Rect img; Pix := out |})).
Proof. apply main_files. Qed.

Lemma main_writes_one_file_witness :
  files (snd (main "in.bmp" "" "msg.txt" toy_world)) = files toy_world
  \/ ("msg.txt"%string <> ""%string /\ ""%string <> ""%string
      /\ exists fp img payload,
           os_Open (files toy_world) "" = inl fp
           /\ bmp_Decode fp = inl (ImageRGBA img)
           /\ decode (Pix img) = Done payload
           /\ files (snd (main "in.bmp" "" "msg.txt" toy_world))
              = fst (ioutil_WriteFile (files toy_world) "msg.txt" payload))
  \/ ("msg.txt"%string <> ""%string /\ ""%string = ""%string
      /\ "in.bmp"%string <> ""%string
      /\ exists fp img payload out fs1,
           os_Open (files toy_world) "in.bmp" = inl fp
           /\ bmp_Decode fp = inl (ImageRGBA img)
           /\ ioutil_ReadFile (files toy_world) "msg.txt" = inl payload
           /\ encoded (Pix img) payload = Done out
           /\ os_Create (files toy_world)
                (path_Join (path_Dir "in.bmp") "encoded.bmp") = inl fs1
           /\ files (snd (main "in.bmp" "" "msg.txt" toy_world)) =
                fst (bmp_Encode fs1 (path_Join (path_Dir "in.bmp") "encoded.bmp")
                       {| Rect := Rect img; Pix := out |})).
Proof.
  apply (main_writes_one_file "in.bmp" "" "msg.txt" toy_world _
           (fst (main "in.bmp" "" "msg.txt" toy_world))).
  apply surjective_pairing.
Defined.

(** X17: [main -encode img -msg file], then [main -decode] on the
    "encoded.bmp" it wrote: when the source opens as an [*image.RGBA]
    with room for the frame of the payload (of fewer than [2 ^ 32]
    bytes), the output file can be created and encoded, and it opens
    again as an [*image.RGBA] with the pixels that were encoded, then the
    first run ends normally and the second one writes exactly the payload
    to its [-msg] file. *)
Theorem main_roundtrip {FS : Type} `{Env FS}
    (enc msgfile : string) (w : world FS)
    (fp : list Z) (img : RGBA) (payload : list Z) (fs1 fs2 : FS)
    (fp2 : list Z) (img2 : RGBA) :
  let dest := path_Join (path_Dir enc) "encoded.bmp" in
  let out := embed_bits 0 (Pix img) (bits_of (frame payload)) in
  enc <> ""%string -> msgfile <> ""%string -> dest <> ""%string ->
  os_Open (files w) enc = inl fp ->
  bmp_Decode fp = inl (ImageRGBA img) ->
  ioutil_ReadFile (files w) msgfile = inl payload ->
  Forall is_byte (Pix img) -> Forall is_byte payload ->
  len payload < 2 ^ 32 ->
  8 * (8 + len payload) <= eligible_count (Pix img) ->
  os_Create (files w) dest = inl fs1 ->
  bmp_Encode fs1 dest {| Rect := Rect img; Pix := out |} = (fs2, None) ->
  os_Open fs2 dest = inl fp2 ->
  bmp_Decode fp2 = inl (ImageRGBA img2) ->
  Pix img2 = out ->
  exists w1,
    main enc "" msgfile w = (Done tt, w1)
    /\ files w1 = fs2
    /\ forall outfile fs3,
         outfile <> ""%string ->
         ioutil_WriteFile fs2 outfile payload = (fs3, None) ->
         exists w2, main "" dest outfile w1 = (Done tt, w2) /\ files w2 = fs3.
Proof. apply main_encode_decode. Qed.

Lemma main_roundtrip_witness :
  exists w1,
    main "in.bmp" "" "msg.txt" toy_world = (Done tt, w1)
    /\ files w1 = <["encoded.bmp"%string := hello_carrier]>
                    (<["encoded.bmp"%string := []]> toy_files)
    /\ forall outfile fs3,
         outfile <> ""%string ->
         ioutil_WriteFile
           (<["encoded.bmp"%string := hello_carrier]>
              (<["encoded.bmp"%string := []]> toy_files)) outfile hello
         = (fs3, None) ->
         exists w2,
           main "" (path_Join (path_Dir "in.bmp") "encoded.bmp") outfile w1
           = (Done tt, w2)
           /\ files w2 = fs3.
Proof.
  apply (main_roundtrip "in.bmp" "msg.txt" toy_world small_carrier
           {| Rect := (len small_carrier / 4, 1); Pix := small_carrier |}
           hello
           (<["encoded.bmp"%string := []]> toy_files)
           (<["encoded.bmp"%string := hello_carrier]>
              (<["encoded.bmp"%string := []]> toy_files))
           hello_carrier
           {| Rect := (len hello_carrier / 4, 1); Pix := hello_carrier |}).
  - discriminate.
  - discriminate.
  - discriminate.
  - vm_compute. reflexivity.
  - vm_compute. reflexivity.
  - vm_compute. reflexivity.
  - apply replicate_bytes. unfold is_byte. lia.
  - unfold hello. bytes_tac.
  - vm_compute. reflexivity.
  - vm_compute. discriminate.
  - vm_compute. reflexivity.
  - vm_compute. reflexivity.
  - vm_compute. reflexivity.
  - vm_compute. reflexivity.
  - vm_compute. reflexivity.
Defined.


Section NoPanic.
Context {FS : Type} `{Env FS}.

Lemma decode_no_panic (pix : list Z) : decode pix <> Panic.
Proof.
  unfold decode. apply decode_message_no_panic, decode_pixels_bytes.
Qed.

Lemma encoded_no_panic (pix msg : list Z) :
  Forall is_byte pix -> encoded pix msg <> Panic.
Proof.
  intros Hpix. unfold encoded.
  destruct (encode_cases pix msg Hpix) as [[_ ->] | [_ [r' ->]]]; discriminate.
Qed.

Lemma openImage_no_panic (file : string) (w w' : world FS) :
  openImage file w <> (Panic, w').
Proof.
  unfold openImage.
  destruct (os_Open _ file) as [fp | err]; [|discriminate].
  destruct (bmp_Decode fp) as [[img|] | err]; discriminate.
Qed.

Lemma encode_cmd_no_panic (fin fout fmsg : string) (w : world FS) :
  (forall fp img, bmp_Decode fp = inl (ImageRGBA img) -> Forall is_byte (Pix img)) ->
  fst (encode_cmd fin fout fmsg w) <> Panic.
Proof.
  intros Hbytes. unfold encode_cmd, bind.
  destruct (openImage fin w) as [[img | m |] w1] eqn:Ho; try discriminate.
  - destruct (openImage_done _ _ _ _ Ho) as [-> (fp & _ & Hdec)].
    destruct (ioutil_ReadFile (files w) fmsg) as [payload | err]; [|discriminate].
    pose proof (encoded_no_panic (Pix img) payload (Hbytes _ _ Hdec)) as Hnp.
    destruct (encoded (Pix img) payload) as [out | m |]; [|discriminate|tauto].
    destruct (os_Create (files w) _) as [fs1 | err]; [|discriminate].
    destruct (bmp_Encode fs1 _ _) as [fs2 [err|]]; discriminate.
  - exfalso. exact (openImage_no_panic _ _ _ Ho).
Qed.

(** [decode(fin, fout)] panics exactly when the image opens and [decode]
    panics on its pixels. *)
Lemma decode_cmd_on_panic (bits : Z) (fin fout : string) (w : world FS) :
  fst (decode_cmd_on bits fin fout w) = Panic
  <-> exists fp img,
        os_Open (files w) fin = inl fp
        /\ bmp_Decode fp = inl (ImageRGBA img)
        /\ decode_on bits (Pix img) = Panic.
Proof.
  unfold decode_cmd_on, bind. split.
  - destruct (openImage fin w) as [[img | m |] w1] eqn:Ho.
    + destruct (openImage_done _ _ _ _ Ho) as [-> (fp & Hfp & Hd)].
      destruct (decode_on bits (Pix img)) as [payload | m |] eqn:Hdec.
      * destruct (ioutil_WriteFile (files w) fout payload) as [fs [err|]];
          discriminate.
      * discriminate.
      * intros _. exists fp, img. auto.
    + discriminate.
    + exfalso. exact (openImage_no_panic _ _ _ Ho).
  - intros (fp & img & Hfp & Hd & Hdec).
    rewrite (openImage_opens _ _ _ _ Hfp Hd), Hdec. reflexivity.
Qed.

(** [main] panics exactly when [-msg] and [-decode] are given, the image
    opens and [decode] panics on its pixels. *)
Lemma main_on_panic (bits : Z) (enc dec msg : string) (w : world FS) :
  (forall fp img, bmp_Decode fp = inl (ImageRGBA img) -> Forall is_byte (Pix img)) ->
  fst (main_on bits enc dec msg w) = Panic
  <-> msg <> ""%string /\ dec <> ""%string
      /\ exists fp img,
           os_Open (files w) dec = inl fp
           /\ bmp_Decode fp = inl (ImageRGBA img)
           /\ decode_on bits (Pix img) = Panic.
Proof.
  intros Hbytes.
  destruct (String.eqb_spec msg "") as [Hm | Hm].
  { rewrite main_on_usage by auto. split; [discriminate | tauto]. }
  destruct (String.eqb_spec dec "") as [Hd | Hd].
  - split; [|tauto]. intros Hp. exfalso. revert Hp.
    destruct (String.eqb_spec enc "") as [He | He].
    { rewrite main_on_usage by auto. discriminate. }
    subst dec. rewrite main_on_encode by assumption. unfold bind at 1.
    match goal with |- context [encode_cmd enc ?d msg ?w0] =>
      pose proof (encode_cmd_no_panic enc d msg w0 Hbytes) as Hnp;
      destruct (encode_cmd enc d msg w0) as [[u | m |] w1]
    end; [discriminate | discriminate | intros _; apply Hnp; reflexivity].
  - rewrite main_on_decode by assumption. unfold bind at 1.
    match goal with |- context [decode_cmd_on bits dec msg ?w0] =>
      pose proof (decode_cmd_on_panic bits dec msg w0) as Hiff;
      destruct (decode_cmd_on bits dec msg w0) as [[u | m |] w1]
    end; cbn [fst files] in Hiff.
    + split; [discriminate|]. intros (_ & _ & Hex).
      apply Hiff in Hex. discriminate.
    + split; [discriminate|]. intros (_ & _ & Hex).
      apply Hiff in Hex. discriminate.
    + split; [|reflexivity]. intros _.
      split; [assumption|]. split; [assumption|]. apply Hiff. reflexivity.
Qed.

Lemma main_no_panic (enc dec msg : string) (w : world FS) :
  (forall fp img, bmp_Decode fp = inl (ImageRGBA img) -> Forall is_byte (Pix img)) ->
  fst (main enc dec msg w) <> Panic.
Proof.
  intros Hbytes Hp. apply (main_on_panic 64 _ _ _ _ Hbytes) in Hp.
  destruct Hp as (_ & _ & fp & img & _ & _ & Hdec).
  exact (decode_no_panic _ Hdec).
Qed.

(** [main] panics only where [int] has 32 bits, on [-decode] of an image
    whose gathered bytes declare a size of [2 ^ 31] or more. *)
Lemma main_on_panic_width (bits : Z) (enc dec msg : string) (w : world FS) :
  bits = 32 \/ bits = 64 ->
  (forall fp img, bmp_Decode fp = inl (ImageRGBA img) -> Forall is_byte (Pix img)) ->
  fst (main_on bits enc dec msg w) = Panic
  <-> bits = 32 /\ msg <> ""%string /\ dec <> ""%string
      /\ exists fp img size hash rest,
           os_Open (files w) dec = inl fp
           /\ bmp_Decode fp = inl (ImageRGBA img)
           /\ decode_header (decode_pixels (Pix img)) = (size, hash, rest)
           /\ 2 ^ 31 <= size /\ len rest < size.
Proof.
  intros Hbits Hbytes. rewrite (main_on_panic bits enc dec msg w Hbytes).
  split.
  - intros (Hm & Hd & fp & img & Hfp & Himg & Hp).
    destruct (decode_header (decode_pixels (Pix img))) as [[size hash] rest] eqn:Hh.
    apply (decode_on_panic bits _ _ _ _ Hbits Hh) in Hp.
    destruct Hp as (Hb & Hbig & Hlt).
    split; [assumption|]. split; [assumption|]. split; [assumption|].
    exists fp, img, size, hash, rest. auto.
  - intros (Hb & Hm & Hd & fp & img & size & hash & rest & Hfp & Himg & Hh & Hbig & Hlt).
    split; [assumption|]. split; [assumption|].
    exists fp, img. split; [assumption|]. split; [assumption|].
    apply (decode_on_panic bits _ _ _ _ Hbits Hh). auto.
Qed.

End NoPanic.

(** X18: [main] ends in a run-time panic (an index or a slice out of
    range) in one case only, as long as the pixels of decoded images are
    bytes: [int] has 32 bits, [-msg] and [-decode] are given, the image
    opens, and the bytes gathered from its pixels declare a size of
    [2 ^ 31] or more with fewer bytes left, which [decode] then slices.
    Where [int] has 64 bits [main] never panics. *)
Theorem main_panics_only_on_32_bits {FS : Type} `{Env FS}
    (bits : Z) (enc dec msg : string) (w : world FS) :
  bits = 32 \/ bits = 64 ->
  (forall fp img, bmp_Decode fp = inl (ImageRGBA img) -> Forall is_byte (Pix img)) ->
  fst (main_on bits enc dec msg w) = Panic
  <-> bits = 32 /\ msg <> ""%string /\ dec <> ""%string
      /\ exists fp img size hash rest,
           os_Open (files w) dec = inl fp
           /\ bmp_Decode fp = inl (ImageRGBA img)
           /\ decode_header (decode_pixels (Pix img)) = (size, hash, rest)
           /\ 2 ^ 31 <= size /\ len rest < size.
Proof. apply main_on_panic_width. Qed.

Lemma main_panics_only_on_32_bits_witness :
  fst (main_on 32 "" "white.bmp" "out.txt" white_world) = Panic
  /\ fst (main_on 64 "" "white.bmp" "out.txt" white_world) <> Panic.
Proof.
  assert (forall (fp : list Z) img,
            bmp_Decode fp = inl (ImageRGBA img) -> Forall is_byte (Pix img))
    as Hbytes.
  { intros fp img Hd. cbn in Hd. injection Hd as <-. cbn [Pix].
    apply Forall_fmap, Forall_forall. intros b _.
    apply Z.mod_pos_bound. lia. }
  split.
  - apply (proj2 (main_panics_only_on_32_bits 32 "" "white.bmp" "out.txt"
                    white_world (or_introl eq_refl) Hbytes)).
    split; [reflexivity|]. split; [discriminate|]. split; [discriminate|].
    exists (replicate 44 255),
           {| Rect := (len (replicate 44 255) / 4, 1);
              Pix := (fun b => b mod 256) <$> replicate 44 255 |},
           4294967295, 0, [].
    split; [vm_compute; reflexivity|]. split; [vm_compute; reflexivity|].
    split; [vm_compute; reflexivity|]. split; [lia | vm_compute; reflexivity].
  - intros Hp.
    apply (proj1 (main_panics_only_on_32_bits 64 "" "white.bmp" "out.txt"
                    white_world (or_intror eq_refl) Hbytes)) in Hp.
    destruct Hp as [H32 _]. discriminate H32.
Defined.

(** X19: the two widths of [int] give the same result of [decode] unless
    the one of 32 bits panics; in particular a message is found on one
    exactly when it is found on the other, and it is the same message. *)
Theorem decode_widths_agree (bits : Z) (pix : list Z) :
  bits = 32 \/ bits = 64 ->
  (forall out, decode_on bits pix = Done out <-> decode pix = Done out)
  /\ (decode_on bits pix <> Panic -> decode_on bits pix = decode pix)
  /\ decode_on 64 pix = decode pix.
Proof.
  intros Hbits. split; [|split; [|reflexivity]].
  - intros out. apply decode_on_done. assumption.
  - intros Hnp.
    destruct (decode_header (decode_pixels pix)) as [[size hash] msg] eqn:Hh.
    rewrite (decode_on_width bits pix _ _ _ Hbits Hh) in *.
    destruct ((bits =? 32) && (2 ^ 31 <=? size) && (len msg <? size));
      [contradiction | reflexivity].
Qed.

Lemma decode_widths_agree_witness :
  decode_on 32 hello_carrier = Done hello.
Proof.
  apply (proj1 (decode_widths_agree 32 hello_carrier (or_introl eq_refl))).
  vm_compute. reflexivity.
Defined.
